(** * build_static.py: the static site generator of the NetLogo models page

    A shallow embedding of [build_static.py] and of the pieces of the Python
    standard library it calls ([str] methods, the UTF-8 codec, [re], [html],
    [pathlib], [sorted]), followed by the properties of the generator.

    A Python [str] is a sequence of Unicode code points: it is modelled as a
    list of [N].  A file is the list of its bytes. *)

From Stdlib Require Import List NArith Bool Lia Arith.
From Stdlib Require Import Strings.String Strings.Ascii Strings.Byte DecimalString.
From Stdlib Require Import Permutation Sorted.
Import ListNotations.

Set Implicit Arguments.
#[local] Set Warnings "-register-all".

(* ================================================================== *)
(** * Part I: definitions *)
(* ================================================================== *)

(** ** Python strings *)

Module PyStr.

Definition str := list N.

(** A literal of the source, one code point per character. *)
Definition lit (s : string) : str :=
  map N_of_ascii (list_ascii_of_string s).

(** A character of the source. *)
Definition chr (a : ascii) : N := N_of_ascii a.

(** A literal of the source that contains double quotes: the template is
    written with an apostrophe wherever the source has a double quote
    (no template of the program contains an apostrophe of its own). *)
Definition tpl (s : string) : str :=
  map (fun c => if (c =? 39)%N then 34%N else c) (lit s).

Fixpoint eqb (s t : str) : bool :=
  match s, t with
  | [], [] => true
  | c :: s', d :: t' => (c =? d)%N && eqb s' t'
  | _, _ => false
  end.

(** [s.startswith(p)] *)
Fixpoint startswith (p s : str) : bool :=
  match p, s with
  | [], _ => true
  | c :: p', d :: s' => (c =? d)%N && startswith p' s'
  | _ :: _, [] => false
  end.

(** [p in s] *)
Fixpoint contains (p s : str) : bool :=
  startswith p s ||
  match s with
  | [] => false
  | _ :: s' => contains p s'
  end.

(** [s.replace(old, new)] for a non-empty [old]: the occurrences are
    found from left to right and do not overlap.  [skip] counts the
    characters of a found occurrence that are still to be passed over. *)
Fixpoint replace_from (old new : str) (skip : nat) (s : str) : str :=
  match s with
  | [] => []
  | c :: s' =>
      match skip with
      | S k => replace_from old new k s'
      | O =>
          if startswith old s
          then new ++ replace_from old new (List.length old - 1) s'
          else c :: replace_from old new 0 s'
      end
  end.

Definition replace (old new s : str) : str := replace_from old new 0 s.

(** [sep.join(parts)] *)
Fixpoint join (sep : str) (parts : list str) : str :=
  match parts with
  | [] => []
  | [p] => p
  | p :: rest => p ++ sep ++ join sep rest
  end.

(** [s * n] *)
Fixpoint times (s : str) (n : nat) : str :=
  match n with
  | O => []
  | S k => s ++ times s k
  end.

(** [c.isspace()]: the code points Python treats as white space. *)
Definition isspace (c : N) : bool :=
  ((9 <=? c) && (c <=? 13) || (28 <=? c) && (c <=? 32)
   || (c =? 0x85) || (c =? 0xA0) || (c =? 0x1680)
   || (0x2000 <=? c) && (c <=? 0x200A)
   || (c =? 0x2028) || (c =? 0x2029) || (c =? 0x202F)
   || (c =? 0x205F) || (c =? 0x3000))%N.

Fixpoint lstrip (s : str) : str :=
  match s with
  | [] => []
  | c :: s' => if isspace c then lstrip s' else s
  end.

Definition rstrip (s : str) : str := rev (lstrip (rev s)).

(** [s.strip()] *)
Definition strip (s : str) : str := rstrip (lstrip s).

(** [s < t]: code point by code point, a proper prefix is smaller. *)
Fixpoint ltb (s t : str) : bool :=
  match s, t with
  | _, [] => false
  | [], _ :: _ => true
  | c :: s', d :: t' => (c <? d)%N || (c =? d)%N && ltb s' t'
  end.

Definition leb (s t : str) : bool := negb (ltb t s).

(** [s.rfind(c)] for a single character, [None] standing for [-1]. *)
Fixpoint rfind (c : N) (s : str) : option nat :=
  match s with
  | [] => None
  | d :: s' =>
      match rfind c s' with
      | Some i => Some (S i)
      | None => if (d =? c)%N then Some O else None
      end
  end.

End PyStr.

Import PyStr.

(** ** The UTF-8 codec and text files *)

Module Codec.

(** The [errors] argument of a decoder. *)
Inductive error_handler := Strict | Ignore | Replace.

(** What the decoder does with an undecodable range, [resume] being the
    decoding of what follows the range: [Strict] raises
    [UnicodeDecodeError], [Ignore] drops the range, [Replace] puts one
    U+FFFD in its place. *)
Definition on_error (h : error_handler) (resume : option str) : option str :=
  match h with
  | Strict => None
  | Ignore => resume
  | Replace => option_map (cons 0xFFFD%N) resume
  end.

Definition is_continuation (b : N) : bool := ((0x80 <=? b) && (b <=? 0xBF))%N.

(** The second byte of a three- or four-byte sequence: a continuation
    byte that makes the sequence neither overlong, nor a surrogate, nor
    larger than U+10FFFF. *)
Definition second_ok (b0 b1 : N) : bool :=
  (is_continuation b1 &&
   (if b0 =? 0xE0 then 0xA0 <=? b1
    else if b0 =? 0xED then b1 <? 0xA0
    else if b0 =? 0xF0 then 0x90 <=? b1
    else if b0 =? 0xF4 then b1 <? 0x90
    else true))%N.

Definition cp2 (b0 b1 : N) : N :=
  N.lor (N.shiftl (N.land b0 0x1F) 6) (N.land b1 0x3F).

Definition cp3 (b0 b1 b2 : N) : N :=
  N.lor (N.shiftl (N.land b0 0x0F) 12)
    (N.lor (N.shiftl (N.land b1 0x3F) 6) (N.land b2 0x3F)).

Definition cp4 (b0 b1 b2 b3 : N) : N :=
  N.lor (N.shiftl (N.land b0 0x07) 18)
    (N.lor (N.shiftl (N.land b1 0x3F) 12)
       (N.lor (N.shiftl (N.land b2 0x3F) 6) (N.land b3 0x3F))).

(** [bytes.decode("utf-8", errors)].  An undecodable range is the lead
    byte alone when the byte cannot start a sequence or its successor
    cannot follow it, and otherwise the bytes of the sequence read so
    far; decoding resumes right after the range. *)
Fixpoint utf8_decode (h : error_handler) (bs : list byte) : option str :=
  match bs with
  | [] => Some []
  | x0 :: r0 =>
      let b0 := Byte.to_N x0 in
      if (b0 <? 0x80)%N then option_map (cons b0) (utf8_decode h r0)
      else if (b0 <? 0xC2)%N then on_error h (utf8_decode h r0)
      else if (b0 <? 0xE0)%N then
        match r0 with
        | [] => on_error h (Some [])
        | x1 :: r1 =>
            let b1 := Byte.to_N x1 in
            if is_continuation b1
            then option_map (cons (cp2 b0 b1)) (utf8_decode h r1)
            else on_error h (utf8_decode h r0)
        end
      else if (b0 <? 0xF0)%N then
        match r0 with
        | [] => on_error h (Some [])
        | x1 :: r1 =>
            let b1 := Byte.to_N x1 in
            if second_ok b0 b1 then
              match r1 with
              | [] => on_error h (Some [])
              | x2 :: r2 =>
                  let b2 := Byte.to_N x2 in
                  if is_continuation b2
                  then option_map (cons (cp3 b0 b1 b2)) (utf8_decode h r2)
                  else on_error h (utf8_decode h r1)
              end
            else on_error h (utf8_decode h r0)
        end
      else if (b0 <? 0xF5)%N then
        match r0 with
        | [] => on_error h (Some [])
        | x1 :: r1 =>
            let b1 := Byte.to_N x1 in
            if second_ok b0 b1 then
              match r1 with
              | [] => on_error h (Some [])
              | x2 :: r2 =>
                  let b2 := Byte.to_N x2 in
                  if is_continuation b2 then
                    match r2 with
                    | [] => on_error h (Some [])
                    | x3 :: r3 =>
                        let b3 := Byte.to_N x3 in
                        if is_continuation b3
                        then option_map (cons (cp4 b0 b1 b2 b3))
                               (utf8_decode h r3)
                        else on_error h (utf8_decode h r2)
                    end
                  else on_error h (utf8_decode h r1)
              end
            else on_error h (utf8_decode h r0)
        end
      else on_error h (utf8_decode h r0)
  end.

(** Reading in text mode translates every line ending ("\r\n" or a
    lone "\r") to "\n". *)
Fixpoint translate_newlines (s : str) : str :=
  match s with
  | [] => []
  | c :: s' =>
      if (c =? 13)%N then
        10%N :: match s' with
                | d :: s'' =>
                    if (d =? 10)%N then translate_newlines s''
                    else translate_newlines s'
                | [] => []
                end
      else c :: translate_newlines s'
  end.

(** [Path.read_text(encoding="utf-8", errors=h)] on a file that holds
    [bs]; [None] is a [UnicodeDecodeError]. *)
Definition read_text (h : error_handler) (bs : list byte) : option str :=
  option_map translate_newlines (utf8_decode h bs).

End Codec.

Import Codec.

(** ** The regular expression [INFO_RE] *)

Module Re.

Definition ascii_lower (c : N) : N :=
  if ((65 <=? c) && (c <=? 90))%N then (c + 32)%N else c.

(** Whether the character [c] of the text matches the literal [p] of a
    pattern compiled with [re.IGNORECASE]: the text character is
    lowercased and compared with the lowercased literal; beside the two
    ASCII cases, U+0130 lowercases to "i", and "i" is also matched by
    U+0131, "s" by U+017F and "k" by U+212A. *)
Definition ignorecase_eq (p c : N) : bool :=
  let lp := ascii_lower p in
  ((ascii_lower c =? lp)
   || (lp =? 105) && ((c =? 0x130) || (c =? 0x131))
   || (lp =? 115) && (c =? 0x17F)
   || (lp =? 107) && (c =? 0x212A))%N.

(** The literal [p] matches at the start of [s], ignoring case. *)
Fixpoint match_literal (p s : str) : bool :=
  match p, s with
  | [], _ => true
  | c :: p', d :: s' => ignorecase_eq c d && match_literal p' s'
  | _ :: _, [] => false
  end.

Definition INFO_OPEN : str := lit "<info><![CDATA[".
Definition INFO_CLOSE : str := lit "]]></info>".

(** The group [(.*?)] followed by the literal [close]: with [re.DOTALL]
    the dot takes any character, and the lazy star takes as few as
    possible. *)
Fixpoint lazy_group (close s : str) : option str :=
  if match_literal close s then Some []
  else match s with
       | [] => None
       | c :: s' => option_map (cons c) (lazy_group close s')
       end.

(** The whole pattern tried at the start of [s]; the result is group 1. *)
Definition INFO_RE_match (s : str) : option str :=
  if match_literal INFO_OPEN s
  then lazy_group INFO_CLOSE (skipn (List.length INFO_OPEN) s)
  else None.

(** [INFO_RE.search(text)]: the first position at which the pattern
    matches; the result is group 1 of the match. *)
Fixpoint INFO_RE_search (text : str) : option str :=
  match INFO_RE_match text with
  | Some g => Some g
  | None =>
      match text with
      | [] => None
      | _ :: text' => INFO_RE_search text'
      end
  end.

End Re.

Import Re.

(** ** [extract_info] *)

(** [extract_info(model_path)], the file at [model_path] holding the bytes
    [bs].  [None] stands for an exception raised by the decoder. *)
Definition extract_info (bs : list byte) : option str :=
  match read_text Ignore bs with
  | None => None
  | Some text =>
      match INFO_RE_search text with
      | None => Some []
      | Some group1 => Some (strip group1)
      end
  end.

(** The bytes of an ASCII literal. *)
Definition bytes_of (s : string) : list byte := list_byte_of_string s.

(** ** The [html] module *)

Module Html.

Definition quot : N := 34.

(** [html.escape(s)], with [quote=True]. *)
Definition escape (s : str) : str :=
  let s := replace (lit "&") (lit "&amp;") s in
  let s := replace (lit "<") (lit "&lt;") s in
  let s := replace (lit ">") (lit "&gt;") s in
  let s := replace [quot] (lit "&quot;") s in
  let s := replace (lit "'") (lit "&#x27;") s in
  s.

(** [_invalid_charrefs] *)
Definition invalid_charrefs (num : N) : option str :=
  let table : list (N * N) :=
    [ (0x00, 0xfffd); (0x0d, 0x0d); (0x80, 0x20ac); (0x81, 0x81);
      (0x82, 0x201a); (0x83, 0x0192); (0x84, 0x201e); (0x85, 0x2026);
      (0x86, 0x2020); (0x87, 0x2021); (0x88, 0x02c6); (0x89, 0x2030);
      (0x8a, 0x0160); (0x8b, 0x2039); (0x8c, 0x0152); (0x8d, 0x8d);
      (0x8e, 0x017d); (0x8f, 0x8f); (0x90, 0x90); (0x91, 0x2018);
      (0x92, 0x2019); (0x93, 0x201c); (0x94, 0x201d); (0x95, 0x2022);
      (0x96, 0x2013); (0x97, 0x2014); (0x98, 0x02dc); (0x99, 0x2122);
      (0x9a, 0x0161); (0x9b, 0x203a); (0x9c, 0x0153); (0x9d, 0x9d);
      (0x9e, 0x017e); (0x9f, 0x0178) ]%N in
  option_map (fun kv => [snd kv])
    (find (fun kv => (fst kv =? num)%N) table).

(** [num in _invalid_codepoints] *)
Definition invalid_codepoints (num : N) : bool :=
  ((0x1 <=? num) && (num <=? 0x8)
   || (0xe <=? num) && (num <=? 0x1f)
   || (0x7f <=? num) && (num <=? 0x9f)
   || (0xfdd0 <=? num) && (num <=? 0xfdef)
   || (num =? 0xb)
   || (num <=? 0x10ffff) && (0xfffe <=? N.land num 0xffff))%N.

Definition is_digit (c : N) : bool := ((48 <=? c) && (c <=? 57))%N.

Definition is_hexdigit (c : N) : bool :=
  (is_digit c || (65 <=? c) && (c <=? 70) || (97 <=? c) && (c <=? 102))%N.

(** The class [[^\t\n\f <&#;]] *)
Definition is_name_char (c : N) : bool :=
  negb ((c =? 9) || (c =? 10) || (c =? 12) || (c =? 32)
        || (c =? chr "<") || (c =? chr "&") || (c =? chr "#")
        || (c =? chr ";"))%N.

(** The longest prefix of [s], of at most [max] characters, whose
    characters are all in the class [f]: a greedy repetition. *)
Fixpoint span (f : N -> bool) (max : nat) (s : str) : str :=
  match max, s with
  | S k, c :: s' => if f c then c :: span f k s' else []
  | _, _ => []
  end.

(** The optional [;?] at the start of [s]. *)
Definition semicolon (s : str) : str :=
  match s with
  | c :: _ => if (c =? chr ";")%N then [c] else []
  | [] => []
  end.

(** Group 1 of [_charref] matched right after an ampersand, [s] being
    the text that follows the ampersand:
    [#[0-9]+;?|#[xX][0-9a-fA-F]+;?|[^\t\n\f <&#;]{1,32};?]. *)
Definition charref_group (s : str) : option str :=
  match s with
  | [] => None
  | c :: s1 =>
      if (c =? chr "#")%N then
        match span is_digit (List.length s1) s1 with
        | (_ :: _) as ds => Some (c :: ds ++ semicolon (skipn (List.length ds) s1))
        | [] =>
            match s1 with
            | x :: s2 =>
                if ((x =? chr "x") || (x =? chr "X"))%N then
                  match span is_hexdigit (List.length s2) s2 with
                  | (_ :: _) as hs =>
                      Some (c :: x :: hs ++ semicolon (skipn (List.length hs) s2))
                  | [] => None
                  end
                else None
            | [] => None
            end
        end
      else
        match span is_name_char 32 s with
        | (_ :: _) as ns => Some (ns ++ semicolon (skipn (List.length ns) s))
        | [] => None
        end
  end.

Definition digit_value (c : N) : N :=
  (if is_digit c then c - 48
   else if (97 <=? c) then c - 87
   else c - 55)%N.

(** [int(ds, base)] on a string of digits of that base (a decimal
    string of more than 4300 digits, on which [int] raises, is outside
    the model). *)
Definition int (base : N) (ds : str) : N :=
  fold_left (fun acc d => (acc * base + digit_value d)%N) ds 0%N.

(** [s.rstrip(';')] *)
Fixpoint lstrip_semicolons (s : str) : str :=
  match s with
  | c :: s' => if (c =? chr ";")%N then lstrip_semicolons s' else s
  | [] => []
  end.

Definition rstrip_semicolons (s : str) : str :=
  rev (lstrip_semicolons (rev s)).

Section Unescape.

(** The table [html.entities.html5] of the named character
    references, from a name (with its semicolon when it has one) to
    the text it stands for. *)
Variable html5 : str -> option str.

(** The loop [for x in range(len(s)-1, 1, -1)] of [_replace_charref],
    entered with [x = len(s)-1]. *)
Fixpoint longest_name (s : str) (x : nat) : option str :=
  match x with
  | S (S _ as x') =>
      match html5 (firstn x s) with
      | Some v => Some (v ++ skipn x s)
      | None => longest_name s x'
      end
  | _ => None
  end.

(** [_replace_charref], on group 1 of the match. *)
Definition replace_charref (s : str) : str :=
  match s with
  | [] => []
  | c :: s1 =>
      if (c =? chr "#")%N then
        let num :=
          match s1 with
          | x :: s2 =>
              if ((x =? chr "x") || (x =? chr "X"))%N
              then int 16 (rstrip_semicolons s2)
              else int 10 (rstrip_semicolons s1)
          | [] => 0%N
          end in
        match invalid_charrefs num with
        | Some r => r
        | None =>
            if ((0xD800 <=? num) && (num <=? 0xDFFF) || (0x10FFFF <? num))%N
            then [0xFFFD%N]
            else if invalid_codepoints num then []
            else [num]
        end
      else
        match html5 s with
        | Some v => v
        | None =>
            match longest_name s (List.length s - 1) with
            | Some r => r
            | None => chr "&" :: s
            end
        end
  end.

(** [_charref.sub(_replace_charref, s)]: the matches are found from
    left to right and do not overlap; [skip] counts the characters of
    the current match that are still to be passed over. *)
Fixpoint charref_sub (skip : nat) (s : str) : str :=
  match s with
  | [] => []
  | c :: s' =>
      match skip with
      | S k => charref_sub k s'
      | O =>
          match (if (c =? chr "&")%N then charref_group s' else None) with
          | Some g => replace_charref g ++ charref_sub (List.length g) s'
          | None => c :: charref_sub 0 s'
          end
      end
  end.

(** [html.unescape(s)] *)
Definition unescape (s : str) : str :=
  if contains (lit "&") s then charref_sub 0 s else s.

End Unescape.

(** The four named references that [escape] writes, as they are in
    [html.entities.html5]; every other name is left out. *)
Definition html5_core (name : str) : option str :=
  if eqb name (lit "amp;") then Some (lit "&")
  else if eqb name (lit "lt;") then Some (lit "<")
  else if eqb name (lit "gt;") then Some (lit ">")
  else if eqb name (lit "quot;") then Some [quot]
  else None.

End Html.

(** ** [pathlib]: relative paths *)

Module Pathlib.

(** A relative path with at least one component: [parts] is
    [parent_parts ++ [name]]. *)
Record PurePath := { parent_parts : list str; name : str }.

Definition parts (p : PurePath) : list str := parent_parts p ++ [name p].

Definition as_posix (p : PurePath) : str := join (lit "/") (parts p).

(** The index of the dot that starts the suffix of [name]:
    [i = name.rfind('.')] when [0 < i < len(name) - 1]. *)
Definition suffix_index (nm : str) : option nat :=
  match rfind (chr ".") nm with
  | Some i => if (0 <? i) && (i <? List.length nm - 1) then Some i else None
  | None => None
  end.

Definition suffix (p : PurePath) : str :=
  match suffix_index (name p) with
  | Some i => skipn i (name p)
  | None => []
  end.

Definition stem (p : PurePath) : str :=
  match suffix_index (name p) with
  | Some i => firstn i (name p)
  | None => name p
  end.

Definition with_suffix (p : PurePath) (sfx : str) : PurePath :=
  {| parent_parts := parent_parts p; name := stem p ++ sfx |}.

End Pathlib.

(** ** Dictionaries and [sorted] *)

Section Dict.

Variable V : Type.

(** A [dict] with string keys, in insertion order. *)
Definition dict := list (str * V).

(** [d.get(k)] *)
Fixpoint dict_get (k : str) (d : dict) : option V :=
  match d with
  | [] => None
  | (k', v) :: d' => if eqb k k' then Some v else dict_get k d'
  end.

(** [d[k] = v]: an existing key keeps its place, a new key goes last. *)
Fixpoint dict_set (k : str) (v : V) (d : dict) : dict :=
  match d with
  | [] => [(k, v)]
  | (k', v') :: d' =>
      if eqb k k' then (k, v) :: d' else (k', v') :: dict_set k v d'
  end.

(** [k in d] *)
Definition dict_in (k : str) (d : dict) : bool :=
  match dict_get k d with Some _ => true | None => false end.

End Dict.

Section Sorted.

Variables (A : Type) (key : A -> str).

(** [x] is put before the first element whose key is not smaller than
    its own. *)
Fixpoint insert_sorted (x : A) (l : list A) : list A :=
  match l with
  | [] => [x]
  | y :: l' => if ltb (key y) (key x) then y :: insert_sorted x l' else x :: l
  end.

(** [sorted(l, key=key)].  Python's sort is stable: elements with equal
    keys keep the order they have in [l].  The result of a stable sort
    is determined by that; it is computed here by insertion, from the
    last element to the first. *)
Fixpoint sorted (l : list A) : list A :=
  match l with
  | [] => []
  | x :: l' => insert_sorted x (sorted l')
  end.

End Sorted.

(** ** The folder tree *)

(** A leaf record [{"name": ..., "path": ...}]. *)
Record file_item := { name : str; path : str }.

(** A node of the folder tree: a [dict] that may have a key ["children"],
    holding a [dict] from folder names to nodes, and a key ["files"],
    holding a list of leaf records.  [{}] is [Tree None None]. *)
Inductive tree :=
| Tree (children : option (dict tree)) (files : option (list file_item)).

Definition children (t : tree) : option (dict tree) :=
  match t with Tree c _ => c end.

Definition files (t : tree) : option (list file_item) :=
  match t with Tree _ f => f end.

(** [tree.get("children") or {}] *)
Definition children_or_empty (t : tree) : dict tree :=
  match children t with Some c => c | None => [] end.

(** [tree.get("files", [])] *)
Definition files_or_empty (t : tree) : list file_item :=
  match files t with Some f => f | None => [] end.

(** [add_to_tree(tree, parts, path)]: the tree after the call, which
    updates it in place; [None] is the [IndexError] of [parts[0]] on an
    empty [parts]. *)
Fixpoint add_to_tree (t : tree) (parts : list str) (path : str) : option tree :=
  match parts with
  | [] => None
  | [leaf] =>
      Some (Tree (children t)
              (Some (files_or_empty t ++ [{| name := leaf; path := path |}])))
  | folder :: rest =>
      let children0 := children_or_empty t in
      let children1 :=
        if dict_in folder children0 then children0
        else dict_set folder (Tree None None) children0 in
      match dict_get folder children1 with
      | None => None
      | Some subtree =>
          match add_to_tree subtree rest path with
          | None => None
          | Some subtree' =>
              Some (Tree (Some (dict_set folder subtree' children1)) (files t))
          end
      end
  end.

(** ** The generator *)

Section Site.

(** [str.lower], the Unicode lowercasing of Python. *)
Variable lower : str -> str.

(** [markdown.markdown(text, extensions=["extra", "tables",
    "sane_lists"])], of the Python-Markdown package. *)
Variable markdown : str -> str.

(** The file system: whether [MODELS_DIR / p] exists. *)
Variable exists_in_models : Pathlib.PurePath -> bool.

Definition relative_image_path (model_rel : Pathlib.PurePath)
    (prefix_to_site : str) : option str :=
  if exists_in_models (Pathlib.with_suffix model_rel (lit ".png"))
  then Some (prefix_to_site ++ lit "../models/"
             ++ Pathlib.as_posix (Pathlib.with_suffix model_rel (lit ".png")))
  else None.

Definition netlogoweb_url (model_rel : Pathlib.PurePath) : str :=
  let encoded_path := replace (lit " ") (lit "%20") (Pathlib.as_posix model_rel) in
  lit "https://netlogoweb.org/launch#"
  ++ lit "https://netlogoweb.org/assets/modelslib/"
  ++ encoded_path.

Definition no_info : str := lit "<p><em>No info tab found.</em></p>".

Definition render_model_page (title : str) (model_rel : Pathlib.PurePath)
    (info_html : str) (image_src : option str)
    (stylesheet_href back_href netlogo_url : str) : str :=
  let escaped_title := Html.escape title in
  let info_block := match info_html with [] => no_info | _ => info_html end in
  let image_html :=
    match image_src with
    | Some ((_ :: _) as src) =>
        tpl "<img src='" ++ Html.escape src ++ tpl "' "
        ++ tpl "alt='Screenshot of " ++ escaped_title ++ tpl "' />"
    | _ => []
    end in
tpl "<!doctype html>
<html lang='en'>
  <head>
    <meta charset='utf-8' />
    <meta name='viewport' content='width=device-width, initial-scale=1' />
    <title>" ++
escaped_title ++
tpl "</title>
    <link rel='stylesheet' href='" ++
Html.escape stylesheet_href ++
tpl "' />
  </head>
  <body>
    <main class='model-page'>
      <a class='back-link' href='" ++
Html.escape back_href ++
tpl "'>" ++
[0x2190%N] ++
tpl " Back to list</a>
      <div class='model-card'>
        <div class='model-header'>
          <h1>" ++
escaped_title ++
tpl "</h1>
          <a class='run-button' href='" ++
Html.escape netlogo_url ++
tpl "' target='_blank' rel='noopener'>Run on NetLogoWeb</a>
        </div>
        " ++
image_html ++
tpl "
        <div class='model-info'>" ++
info_block ++
tpl "</div>
      </div>
    </main>
  </body>
</html>
".

(** The list entry of a subfolder, [subtree_html] being the rendering of
    its subtree. *)
Definition folder_parts (open_root : bool) (item : str * str) : list str :=
  let (folder, subtree_html) := item in
  let open_attr := if open_root then lit " open" else [] in
  [ tpl "<li><details" ++ open_attr
    ++ tpl "><summary><span class='icon folder'>" ++ [0x1F4C1%N]
    ++ tpl "</span>" ++ Html.escape folder ++ tpl "</summary>";
    subtree_html;
    tpl "</details></li>" ].

(** The list entry of a file. *)
Definition file_part (file_item : file_item) : str :=
  let name := replace (lit ".nlogox") [] (name file_item) in
  tpl "<li><a href='" ++ Html.escape (path file_item)
  ++ tpl "' target='_blank' rel='noopener'>"
  ++ tpl "<img class='icon file-icon' src='assets/model.png' alt='' />"
  ++ Html.escape name ++ tpl "</a></li>".

(** [render_tree(tree, prefix, open_root)].  The source sorts the
    subfolders and then renders each one; here each subfolder is
    rendered, by a structural recursive call, before the pairs are
    sorted by the same key.  Lemma [render_tree_eq] below gives the
    equation in the order of the source. *)
Fixpoint render_tree (t : tree) (prefix : str) (open_root : bool) : str :=
  let rendered :=
    match children t with
    | Some c =>
        map (fun item : str * tree =>
               (fst item,
                render_tree (snd item) (prefix ++ fst item ++ lit "/") false))
          c
    | None => []
    end in
  let folders := sorted (fun item => lower (fst item)) rendered in
  let files := sorted (fun item => lower (name item)) (files_or_empty t) in
  join (lit (String "010" EmptyString))
    ([lit "<ul>"]
     ++ flat_map (folder_parts open_root) folders
     ++ map file_part files
     ++ [lit "</ul>"]).

(** [str(count)] *)
Definition str_of_nat (count : nat) : str :=
  lit (NilZero.string_of_uint (Nat.to_uint count)).

Definition render_index (t : tree) (count : nat) : str :=
  let tree_html := render_tree t [] false in
tpl "<!doctype html>
<html lang='en'>
  <head>
    <meta charset='utf-8' />
    <meta name='viewport' content='width=device-width, initial-scale=1' />
    <title>NetLogo Models</title>
    <link rel='stylesheet' href='styles.css' />
  </head>
  <body>
    <header class='header'>
      <div class='header__title'>
        <h1>NetLogo Models</h1>
      </div>
    </header>
    <main class='main'>
      <div class='stats-row'>
        <div class='stats'>" ++
str_of_nat count ++
tpl " models</div>
        <div class='header__actions'>
          <button class='action-button' type='button' data-action='expand'>
            <span class='icon'>" ++
[0x2795%N] ++
tpl "</span>Expand all folders
          </button>
          <button class='action-button' type='button' data-action='collapse'>
            <span class='icon'>" ++
[0x2796%N] ++
tpl "</span>Collapse all folders
          </button>
        </div>
      </div>
      <div class='tree'>" ++
tree_html ++
tpl "</div>
    </main>
    <script>
      const detailsNodes = () => Array.from(document.querySelectorAll('.tree details'));
      document.querySelectorAll('.action-button').forEach((button) => {
        button.addEventListener('click', () => {
          const expand = button.dataset.action === 'expand';
          detailsNodes().forEach((node) => {
            node.open = expand;
          });
        });
      });
    </script>
  </body>
</html>
".

(** A file written under [SITE_DIR], at the relative path
    [output_path]. *)
Record site_file := { output_path : str; content : str }.

(** What the body of the loop of [main] computes for the model at
    [MODELS_DIR / model_rel], whose bytes are [bs]: the page it writes
    and the entry it adds to the tree. *)
Definition model_page (model_rel : Pathlib.PurePath) (bs : list byte)
  : option (site_file * (list str * str)) :=
  let title := Pathlib.stem model_rel in
  match extract_info bs with
  | None => None
  | Some info_markdown =>
      let info_html := markdown info_markdown in
      let depth := List.length (Pathlib.parts model_rel) in
      let prefix_to_site := times (lit "../") depth in
      let stylesheet_href := prefix_to_site ++ lit "styles.css" in
      let back_href := prefix_to_site ++ lit "index.html" in
      let image_src := relative_image_path model_rel prefix_to_site in
      let output_path :=
        lit "models/"
        ++ Pathlib.as_posix (Pathlib.with_suffix model_rel (lit ".html")) in
      let page_html :=
        render_model_page title model_rel info_html image_src
          stylesheet_href back_href (netlogoweb_url model_rel) in
      let link_path :=
        lit "models/"
        ++ Pathlib.as_posix (Pathlib.with_suffix model_rel (lit ".html")) in
      Some ({| output_path := output_path; content := page_html |},
            (Pathlib.parent_parts model_rel ++ [Pathlib.name model_rel],
             link_path))
  end.

(** One turn of the loop of [main]: the tree and the files written so
    far are the state. *)
Definition main_step (state : tree * list site_file)
    (model : Pathlib.PurePath * list byte) : option (tree * list site_file) :=
  let (t, written) := state in
  match model_page (fst model) (snd model) with
  | None => None
  | Some (page, (parts, link_path)) =>
      match add_to_tree t parts link_path with
      | None => None
      | Some t' => Some (t', written ++ [page])
      end
  end.

Fixpoint main_loop (state : tree * list site_file)
    (model_paths : list (Pathlib.PurePath * list byte))
  : option (tree * list site_file) :=
  match model_paths with
  | [] => Some state
  | model :: rest =>
      match main_step state model with
      | None => None
      | Some state' => main_loop state' rest
      end
  end.

(** [main()], on the sorted list [model_paths] of the model files found
    under [MODELS_DIR] with their bytes: the files written under
    [SITE_DIR], in the order they are written. *)
Definition main (model_paths : list (Pathlib.PurePath * list byte))
  : option (list site_file) :=
  match main_loop (Tree None None, []) model_paths with
  | None => None
  | Some (t, written) =>
      Some (written
            ++ [{| output_path := lit "index.html";
                   content := render_index t (List.length model_paths) |}])
  end.

End Site.

(** ** Notions used in the statements *)

(** [kept] is [l] with some of its elements deleted. *)
Inductive subseq (A : Type) : list A -> list A -> Prop :=
| subseq_nil : subseq [] []
| subseq_keep x kept l : subseq kept l -> subseq (x :: kept) (x :: l)
| subseq_drop x kept l : subseq kept l -> subseq kept (x :: l).

(** A character starts at the head of [bs]: some first bytes of [bs]
    are the UTF-8 sequence of one character. *)
Definition starts_character (bs : list byte) : Prop :=
  exists k c, utf8_decode Strict (firstn k bs) = Some [c].

(** [d] is an occurrence of the delimiter [p], in any letter case. *)
Definition delimiter (p d : str) : Prop :=
  List.length d = List.length p /\ match_literal p d = true.

(** An occurrence of the delimiter [p] in [before ++ rest] starts inside
    [before]. *)
Definition starts_within (p before rest : str) : Prop :=
  exists u v, before = u ++ v /\ v <> [] /\ match_literal p (v ++ rest) = true.

(** [text] holds a documentation block: an opening delimiter and, after
    it, a closing delimiter. *)
Definition has_block (text : str) : Prop :=
  exists a op b cl c,
    text = a ++ op ++ b ++ cl ++ c
    /\ delimiter INFO_OPEN op /\ delimiter INFO_CLOSE cl.

(** [inner] is the inner text of the first documentation block of [text]:
    it lies between the first opening delimiter of [text] and the first
    closing delimiter that follows it. *)
Definition first_block (text inner : str) : Prop :=
  exists pre op cl post,
    text = pre ++ op ++ inner ++ cl ++ post
    /\ delimiter INFO_OPEN op /\ delimiter INFO_CLOSE cl
    /\ ~ starts_within INFO_OPEN pre (op ++ inner ++ cl ++ post)
    /\ ~ starts_within INFO_CLOSE inner (cl ++ post).

(** [r] is [s] without its leading and trailing white space. *)
Definition trimmed (s r : str) : Prop :=
  exists l t,
    s = l ++ r ++ t
    /\ forallb isspace l = true /\ forallb isspace t = true
    /\ match r with c :: _ => isspace c = false | [] => True end
    /\ match rev r with c :: _ => isspace c = false | [] => True end.

(** The characters that delimit tags and attribute values. *)
Definition is_markup (c : N) : bool :=
  ((c =? chr "<") || (c =? chr ">") || (c =? Html.quot) || (c =? chr "'"))%N.

(** The order of the keys of a sort: not greater, and smaller. *)
Definition key_le (A : Type) (key : A -> str) (x y : A) : Prop :=
  leb (key x) (key y) = true.

Definition key_lt (A : Type) (key : A -> str) (x y : A) : Prop :=
  ltb (key x) (key y) = true.

(** The subtree of the folder [folder] of [t], an empty node when [t] has
    no such folder. *)
Definition subtree_or_empty (folder : str) (t : tree) : tree :=
  match dict_get folder (children_or_empty t) with
  | Some subtree => subtree
  | None => Tree None None
  end.

(** The node reached from [t] by the folder segments [folders], an empty
    node when a folder is missing on the way. *)
Fixpoint descend (folders : list str) (t : tree) : tree :=
  match folders with
  | [] => t
  | folder :: rest => descend rest (subtree_or_empty folder t)
  end.

(** The entries of [entries], segment lists with their links, added one
    after the other to [t]. *)
Fixpoint add_all (t : tree) (entries : list (list str * str)) : option tree :=
  match entries with
  | [] => Some t
  | entry :: rest =>
      match add_to_tree t (fst entry) (snd entry) with
      | Some t' => add_all t' rest
      | None => None
      end
  end.

Fixpoint all_different (l : list str) : bool :=
  match l with
  | [] => true
  | x :: l' => negb (existsb (eqb x) l') && all_different l'
  end.

(** In every folder of the tree, no two subfolders and no two files have
    names that are equal once lowercased. *)
Fixpoint distinct_keys (lower : str -> str) (t : tree) : bool :=
  all_different (map (fun item => lower (fst item)) (children_or_empty t))
  && all_different (map (fun item => lower (name item)) (files_or_empty t))
  && match children t with
     | Some c => forallb (fun item => distinct_keys lower (snd item)) c
     | None => true
     end.

(** The name a list entry shows for a file. *)
Definition display_name (item : file_item) : str :=
  replace (lit ".nlogox") [] (name item).

(** ** Notions used in the proofs *)

(** Whether no occurrence of [p] in a text [a ++ b] can start inside
    [a], whatever [b] is: no suffix of [a] starts with [p] or is the
    start of [p]. *)
Fixpoint no_start (p a : str) : bool :=
  match a with
  | [] => true
  | _ :: a' => negb (startswith p a) && negb (startswith a p) && no_start p a'
  end.

(** Whether no occurrence of [p] that starts before [t] can go on into
    [t]. *)
Definition no_entry (p t : str) : bool :=
  forallb (fun k => negb (startswith (skipn k p) t))
    (seq 1 (List.length p - 1)).

(** An occurrence of [p] in a text that starts with [s] lies after
    [s]. *)
Definition passes (p s : str) : Prop :=
  forall rest, contains p (s ++ rest) = contains p rest.

(** What [html.escape] writes for one character. *)
Definition escape_char (c : N) : str :=
  if (c =? chr "&")%N then lit "&amp;"
  else if (c =? chr "<")%N then lit "&lt;"
  else if (c =? chr ">")%N then lit "&gt;"
  else if (c =? Html.quot)%N then lit "&quot;"
  else if (c =? chr "'")%N then lit "&#x27;"
  else [c].

(** The dictionary of the subfolders of [t] once [folder] has been looked
    up or created. *)
Definition children_with (folder : str) (t : tree) : dict tree :=
  if dict_in folder (children_or_empty t) then children_or_empty t
  else dict_set folder (Tree None None) (children_or_empty t).

(** The node reached from [t] by the folder segments, when all the
    folders are there. *)
Fixpoint node_at (folders : list str) (t : tree) : option tree :=
  match folders with
  | [] => Some t
  | folder :: rest =>
      match dict_get folder (children_or_empty t) with
      | Some subtree => node_at rest subtree
      | None => None
      end
  end.

(** The leaf records of the folder reached by [folders]. *)
Definition files_at (folders : list str) (t : tree) : option (list file_item) :=
  option_map files_or_empty (node_at folders t).

(** The folder reached by [q] in [t] holds the leaf record [item]. *)
Definition listed_at (q : list str) (item : file_item) (t : tree) : Prop :=
  exists items, files_at q t = Some items /\ In item items.

Definition same_items (a b : option (list file_item)) : Prop :=
  match a, b with
  | Some x, Some y => Permutation x y
  | None, None => True
  | _, _ => False
  end.

(** Two trees have the same folders and, in each folder, the same leaf
    records, in any order. *)
Definition same_entries (t1 t2 : tree) : Prop :=
  forall folders, same_items (files_at folders t1) (files_at folders t2).

(** No [dict] of the tree has a key twice, as it is in Python. *)
Inductive unique_folders : tree -> Prop :=
| unique_folders_node c f :
    NoDup (map fst (children_or_empty (Tree c f))) ->
    Forall (fun item => unique_folders (snd item))
      (children_or_empty (Tree c f)) ->
    unique_folders (Tree c f).

Fixpoint same_path (q fs : list str) : bool :=
  match q, fs with
  | [], [] => true
  | a :: q', b :: fs' => eqb a b && same_path q' fs'
  | _, _ => false
  end.

Fixpoint path_prefix (q fs : list str) : bool :=
  match q, fs with
  | [], _ => true
  | a :: q', b :: fs' => eqb a b && path_prefix q' fs'
  | _ :: _, [] => false
  end.

Definition items_or_empty (a : option (list file_item)) : list file_item :=
  match a with Some l => l | None => [] end.

(** The leaf records of the folder [q] once [item] has been added to the
    folder [fs], [a] being the leaf records of [q] before: one more
    record in [fs], a folder that is there on the way to [fs], and the
    same records everywhere else. *)
Definition after_add (fs : list str) (item : file_item) (q : list str)
    (a : option (list file_item)) : option (list file_item) :=
  if same_path q fs then Some (items_or_empty a ++ [item])
  else if path_prefix q fs then Some (items_or_empty a)
  else a.

(** ** Notions used in further statements *)

(** The number of leaf records of a tree, in all its folders. *)
Fixpoint count_files (t : tree) : nat :=
  List.length (files_or_empty t)
  + match children t with
    | Some c => list_sum (map (fun item : str * tree => count_files (snd item)) c)
    | None => 0
    end.

(** The literal texts between which [render_tree] writes the escaped
    names and links and the renderings of the subfolders: the pieces of
    its format strings, the head of a folder entry being taken with the
    [open] attribute that [open_root] asks for, and the line end that
    joins the parts. *)
Definition tree_literals (open_root : bool) : list str :=
  [ lit "<ul>";
    tpl "<li><details" ++ (if open_root then lit " open" else [])
    ++ tpl "><summary><span class='icon folder'>" ++ [0x1F4C1%N]
    ++ tpl "</span>";
    tpl "</summary>";
    tpl "</details></li>";
    tpl "<li><a href='";
    tpl "' target='_blank' rel='noopener'>";
    tpl "<img class='icon file-icon' src='assets/model.png' alt='' />";
    tpl "</a></li>";
    lit "</ul>";
    [10%N] ].

(** The text [pat] starts with a markup character and is foreign to the
    literals of [render_tree]: no occurrence of [pat] can start in one
    of them. *)
Definition foreign_to_tree (open_root : bool) (pat : str) : bool :=
  match pat with c :: _ => is_markup c | [] => false end
  && forallb (no_start pat) (tree_literals false)
  && forallb (no_start pat) (tree_literals open_root).

(** ** Instances for concrete runs *)

(** [str.lower] on a text whose cased characters are all ASCII. *)
Definition lower_ascii (s : str) : str := map ascii_lower s.

(** The conversion of Python-Markdown on the empty text and on one line of
    plain words: nothing, and one paragraph. *)
Definition markdown_plain (s : str) : str :=
  match s with
  | [] => []
  | _ => lit "<p>" ++ s ++ lit "</p>"
  end.

(** The model file of the scenario of the specification. *)
Definition wolf_sheep : Pathlib.PurePath :=
  {| Pathlib.parent_parts := [lit "Biology"];
     Pathlib.name := lit "Wolf Sheep.nlogox" |}.

(** A model file at the root of the models. *)
Definition fire : Pathlib.PurePath :=
  {| Pathlib.parent_parts := []; Pathlib.name := lit "Fire.nlogox" |}.

(** A model file with two documentation blocks. *)
Definition two_blocks_file : string :=
  "<model><INFO><![cdata[
 # Wolves

]]></Info><info><![CDATA[second]]></info></model>".

(** A model file with an undecodable byte inside its documentation
    block. *)
Definition bad_byte_file : list byte :=
  bytes_of "<info><![CDATA[a" ++ xff :: bytes_of "b]]></info>".

(** The leaf record of a model file named [a.nlogox.nlogox]. *)
Definition double_extension : file_item :=
  {| name := lit "a.nlogox.nlogox"; path := lit "models/a.nlogox.html" |}.

(** Two model files of one folder. *)
Definition fire_files : list file_item :=
  [ {| name := lit "Fire.nlogox"; path := lit "models/Fire.html" |};
    {| name := lit "Fire Simple.nlogox"; path := lit "models/Fire Simple.html" |} ].

(** Two model files whose names differ by the case of a letter. *)
Definition case_entries : list (list str * str) :=
  [ ([lit "Ants.nlogox"], lit "models/Ants.html");
    ([lit "ants.nlogox"], lit "models/ants.html") ].

(** Three model files, in two folders and at the root. *)
Definition sample_entries : list (list str * str) :=
  [ ([lit "Biology"; lit "Wolf Sheep.nlogox"], lit "models/Biology/Wolf Sheep.html");
    ([lit "Fire.nlogox"], lit "models/Fire.html");
    ([lit "Biology"; lit "Evolution"; lit "Bug Hunt.nlogox"],
     lit "models/Biology/Evolution/Bug Hunt.html") ].

(** The tree of the three model files. *)
Definition sample_tree : tree :=
  Eval vm_compute in
    match add_all (Tree None None) sample_entries with
    | Some t => t
    | None => Tree None None
    end.


(* ================================================================== *)
(** * Part II: properties *)
(* ================================================================== *)

Unset Implicit Arguments.

(** ** Decoding *)

Section DecodingFacts.

Lemma subseq_refl (A : Type) (l : list A) : subseq l l.
Proof. induction l; constructor; assumption. Qed.

(** One step of the decoder. *)
Lemma utf8_decode_cons (h : error_handler) (x0 : byte) (r0 : list byte) :
  utf8_decode h (x0 :: r0)
  = ltac:(let body := eval cbn [utf8_decode] in (utf8_decode h (x0 :: r0)) in
          exact body).
Proof. reflexivity. Qed.

(** Case analysis on one step of the decoder: the tests on the bytes
    are decided and the lists that are inspected are opened. *)
Ltac decoder_cases Hn :=
  repeat match goal with
         | |- context [if ?b then _ else _] =>
             lazymatch type of b with bool => destruct b eqn:? end
         | |- context [match ?l with [] => _ | _ :: _ => _ end] =>
             is_var l; destruct l; cbn [List.length] in Hn; cbv beta iota
         end.

(** With [Ignore] the decoder has a result on every input. *)
Lemma utf8_decode_ignore_total (bs : list byte) :
  exists text, utf8_decode Ignore bs = Some text.
Proof.
  remember (List.length bs) as n eqn:Hn.
  revert bs Hn.
  induction n as [n IH] using lt_wf_ind; intros bs Hn.
  assert (step : forall r, List.length r < n ->
                 exists text, utf8_decode Ignore r = Some text)
    by (intros r Hr; eapply IH; [exact Hr | reflexivity]).
  assert (emit : forall c r, List.length r < n ->
                 exists text, option_map (cons c) (utf8_decode Ignore r) = Some text)
    by (intros c r Hr; destruct (step r Hr) as [t ->]; simpl; eauto).
  destruct bs as [|x0 r0]; [simpl; eauto|].
  cbn [List.length] in Hn. rewrite utf8_decode_cons. cbn [on_error].
  decoder_cases Hn;
    first [ eexists; reflexivity
          | apply emit; subst n; cbn [List.length]; lia
          | apply step; subst n; cbn [List.length]; lia ].
Qed.

(** A file that [Strict] decodes is decoded the same by [Ignore]. *)
Lemma utf8_decode_strict_ignore (bs : list byte) (text : str) :
  utf8_decode Strict bs = Some text -> utf8_decode Ignore bs = Some text.
Proof.
  remember (List.length bs) as n eqn:Hn.
  revert bs text Hn.
  induction n as [n IH] using lt_wf_ind; intros bs text Hn.
  assert (step : forall c r, List.length r < n -> forall t,
            option_map (cons c) (utf8_decode Strict r) = Some t ->
            option_map (cons c) (utf8_decode Ignore r) = Some t).
  { intros c r Hr t H. destruct (utf8_decode Strict r) as [u|] eqn:E;
      [|discriminate].
    erewrite IH; [exact H | exact Hr | reflexivity | exact E]. }
  destruct bs as [|x0 r0]; [trivial|].
  cbn [List.length] in Hn. rewrite !utf8_decode_cons. cbn [on_error].
  decoder_cases Hn;
    first [ discriminate
          | apply step; subst n; cbn [List.length]; lia ].
Qed.

(** What [Ignore] decodes is what [Strict] decodes once the undecodable
    bytes have been deleted from the input. *)
Lemma utf8_decode_ignore_kept (bs : list byte) :
  exists kept, subseq kept bs
               /\ utf8_decode Strict kept = utf8_decode Ignore bs.
Proof.
  remember (List.length bs) as n eqn:Hn.
  revert bs Hn.
  induction n as [n IH] using lt_wf_ind; intros bs Hn.
  assert (step : forall r, List.length r < n ->
            exists kept, subseq kept r
                         /\ utf8_decode Strict kept = utf8_decode Ignore r)
    by (intros r Hr; eapply IH; [exact Hr | reflexivity]).
  assert (nothing : forall l : list byte,
            exists kept, subseq kept l
                         /\ utf8_decode Strict kept = Some []).
  { intros l. exists []. split; [|reflexivity].
    induction l; constructor; assumption. }
  destruct bs as [|x0 r0]; [exists []; split; [constructor | reflexivity]|].
  cbn [List.length] in Hn. rewrite utf8_decode_cons. cbn [on_error].
  decoder_cases Hn;
    try apply nothing;
    (* a decoded sequence: its bytes are kept *)
    match goal with
    | |- exists _, subseq _ (?a :: ?b :: ?c :: ?d :: ?r) /\ _ =
                   option_map _ (utf8_decode Ignore ?r) =>
        destruct (step r) as (k & Hk & Hd);
        [subst n; cbn [List.length]; lia|];
        exists (a :: b :: c :: d :: k)
    | |- exists _, subseq _ (?a :: ?b :: ?c :: ?r) /\ _ =
                   option_map _ (utf8_decode Ignore ?r) =>
        destruct (step r) as (k & Hk & Hd);
        [subst n; cbn [List.length]; lia|];
        exists (a :: b :: c :: k)
    | |- exists _, subseq _ (?a :: ?b :: ?r) /\ _ =
                   option_map _ (utf8_decode Ignore ?r) =>
        destruct (step r) as (k & Hk & Hd);
        [subst n; cbn [List.length]; lia|];
        exists (a :: b :: k)
    | |- exists _, subseq _ (?a :: ?r) /\ _ =
                   option_map _ (utf8_decode Ignore ?r) =>
        destruct (step r) as (k & Hk & Hd);
        [subst n; cbn [List.length]; lia|];
        exists (a :: k)
    | |- exists _, subseq _ _ /\ _ = utf8_decode Ignore ?r =>
        destruct (step r) as (k & Hk & Hd);
        [subst n; cbn [List.length]; lia|];
        exists k;
        split; [repeat first [exact Hk | apply subseq_drop] | exact Hd]
    | _ => idtac
    end;
    try (split; [repeat constructor; exact Hk|];
         rewrite utf8_decode_cons; cbv beta iota;
         repeat match goal with
                | E : ?b = _ |- context [if ?b then _ else _] => rewrite E
                end;
         cbv beta iota; rewrite Hd; reflexivity).
Qed.

(** The same case analysis, for a hypothesis and a goal that decode
    the same first bytes. *)
Ltac prefix_cases Hn :=
  repeat first
    [ match goal with
      | |- None = Some _ -> _ =>
          let H := fresh in intros H; discriminate H
      end
    | match goal with
      | |- context [if ?b then _ else _] =>
          lazymatch type of b with bool => destruct b eqn:? end
      end
    | match goal with
      | |- context [match ?l with [] => _ | _ :: _ => _ end] =>
          is_var l; destruct l; cbn [List.length] in Hn; cbn [app];
          cbv beta iota
      end ].

(** What decodes cleanly is decoded the same whatever follows it and
    whatever the handler, and what follows is decoded after it. *)
Lemma utf8_decode_clean_prefix (h : error_handler) (a b : list byte)
    (ta : str) :
  utf8_decode Strict a = Some ta ->
  utf8_decode h (a ++ b) = option_map (app ta) (utf8_decode h b).
Proof.
  remember (List.length a) as n eqn:Hn.
  revert a ta Hn.
  induction n as [n IH] using lt_wf_ind; intros a ta Hn.
  assert (step : forall c r, List.length r < n ->
            option_map (cons c) (utf8_decode Strict r) = Some ta ->
            option_map (cons c) (utf8_decode h (r ++ b))
            = option_map (app ta) (utf8_decode h b)).
  { intros c r Hr H. destruct (utf8_decode Strict r) as [u|] eqn:E;
      [|discriminate].
    injection H as <-.
    rewrite (IH _ Hr r u eq_refl E).
    destruct (utf8_decode h b); reflexivity. }
  destruct a as [|x0 r0].
  - intros [= <-]. cbn [app]. destruct (utf8_decode h b); reflexivity.
  - cbn [List.length] in Hn. cbn [app]. rewrite !utf8_decode_cons.
    cbn [on_error].
    prefix_cases Hn;
      apply step; subst n; cbn [List.length]; lia.
Qed.

(** A continuation byte at which a character should start is
    dropped. *)
Lemma utf8_decode_ignore_continuation (x : byte) (r : list byte) :
  is_continuation (Byte.to_N x) = true ->
  utf8_decode Ignore (x :: r) = utf8_decode Ignore r.
Proof.
  intros H. rewrite utf8_decode_cons.
  unfold is_continuation in H. apply andb_true_iff in H as [H1 H2].
  apply N.leb_le in H1, H2.
  destruct (N.ltb_spec (Byte.to_N x) 128); [lia|].
  destruct (N.ltb_spec (Byte.to_N x) 194); [|lia].
  reflexivity.
Qed.

Lemma second_ok_continuation (b0 b1 : N) :
  second_ok b0 b1 = true -> is_continuation b1 = true.
Proof. unfold second_ok. intros H. now apply andb_true_iff in H. Qed.

(** A byte at which no character starts is dropped, and the decoding
    goes on with the byte that follows it. *)
Lemma utf8_decode_ignore_drop (x : byte) (r : list byte) :
  ~ starts_character (x :: r) ->
  utf8_decode Ignore (x :: r) = utf8_decode Ignore r.
Proof.
  intros H.
  assert (Hk : forall k c,
             utf8_decode Strict (firstn k (x :: r)) = Some [c] -> False)
    by (intros k c E; apply H; exists k, c; exact E).
  clear H. remember 0 as n eqn:Hn.
  rewrite utf8_decode_cons. cbn [on_error].
  decoder_cases Hn;
    first
      [ (* a character is decoded: it starts at the byte *)
        match goal with
        | |- option_map (cons ?c) _ = _ =>
            exfalso;
            lazymatch c with
            | cp4 _ _ _ _ => apply (Hk 4 c)
            | cp3 _ _ _ => apply (Hk 3 c)
            | cp2 _ _ => apply (Hk 2 c)
            | _ => apply (Hk 1 c)
            end;
            cbn [firstn]; rewrite utf8_decode_cons;
            repeat match goal with
                   | E : ?b = _ |- context [if ?b then _ else _] => rewrite E
                   end;
            cbv beta iota; reflexivity
        end
      | (* the byte is dropped, and the continuation bytes read with it
           are dropped in their turn *)
        repeat match goal with
               | E : second_ok _ _ = true |- _ =>
                   apply second_ok_continuation in E
               end;
        repeat match goal with
               | E : is_continuation (Byte.to_N ?y) = true |- _ =>
                   rewrite (utf8_decode_ignore_continuation y _ E)
               end;
        reflexivity ].
Qed.

End DecodingFacts.


(** ** The documentation block *)

Section ExtractFacts.

Lemma match_literal_app (p d rest : str) :
  match_literal p d = true -> match_literal p (d ++ rest) = true.
Proof.
  revert d; induction p as [|c p IH]; intros [|x d]; simpl; try easy.
  intros H. apply andb_true_iff in H as [H1 H2].
  rewrite H1, (IH _ H2). reflexivity.
Qed.

(** A match of a literal at the start of [s] splits [s] into the
    occurrence of the delimiter and what follows it. *)
Lemma match_literal_split (p s : str) :
  match_literal p s = true ->
  delimiter p (firstn (List.length p) s)
  /\ s = firstn (List.length p) s ++ skipn (List.length p) s.
Proof.
  intros H. split; [|symmetry; apply firstn_skipn].
  revert s H; induction p as [|c p IH]; intros [|x s]; simpl; try easy.
  intros H. apply andb_true_iff in H as [H1 H2].
  destruct (IH _ H2) as [L M]. split.
  - simpl. now rewrite L.
  - simpl. now rewrite H1, M.
Qed.

Lemma skipn_delimiter (p d rest : str) :
  delimiter p d -> skipn (List.length p) (d ++ rest) = rest.
Proof.
  intros [L _]. rewrite <- L, skipn_app, skipn_all, Nat.sub_diag.
  reflexivity.
Qed.

Lemma not_starts_within_nil (p rest : str) : ~ starts_within p [] rest.
Proof.
  intros (u & v & E & N & _). symmetry in E.
  apply app_eq_nil in E as [_ ->]. now apply N.
Qed.

Lemma starts_within_cons (p : str) (c : N) (before rest : str) :
  starts_within p (c :: before) rest <->
  match_literal p (c :: before ++ rest) = true
  \/ starts_within p before rest.
Proof.
  split.
  - intros (u & v & E & N & M). destruct u as [|x u]; simpl in E.
    + left. subst v. exact M.
    + right. injection E as _ E. exists u, v. auto.
  - intros [M | (u & v & E & N & M)].
    + exists [], (c :: before). repeat split; [discriminate | exact M].
    + exists (c :: u), v. subst before. auto.
Qed.

(** The lazy group stops at the first closing delimiter. *)
Lemma lazy_group_first (close g rest : str) :
  ~ starts_within close g rest ->
  match_literal close rest = true ->
  lazy_group close (g ++ rest) = Some g.
Proof.
  induction g as [|c g IH]; intros N M.
  - simpl. destruct rest; simpl in *; now rewrite M.
  - rewrite starts_within_cons in N.
    change (lazy_group close ((c :: g) ++ rest))
      with (if match_literal close (c :: g ++ rest) then Some []
            else option_map (cons c) (lazy_group close (g ++ rest))).
    destruct (match_literal close (c :: g ++ rest)); [exfalso; auto|].
    rewrite IH; auto.
Qed.

(** A closing delimiter somewhere in the text ends a lazy group. *)
Lemma lazy_group_found (close u v : str) :
  match_literal close v = true ->
  exists g rest,
    u ++ v = g ++ rest
    /\ match_literal close rest = true
    /\ ~ starts_within close g rest
    /\ lazy_group close (u ++ v) = Some g.
Proof.
  intros M. induction u as [|c u (g & rest & E & Mr & N & L)].
  - exists [], v. repeat split; auto using not_starts_within_nil.
    simpl. destruct v; simpl in *; now rewrite M.
  - destruct (match_literal close (c :: u ++ v)) eqn:M0.
    + exists [], (c :: u ++ v).
      repeat split; auto using not_starts_within_nil.
      simpl. simpl in M0. now rewrite M0.
    + exists (c :: g), rest. repeat split; auto.
      * simpl. now rewrite E.
      * rewrite starts_within_cons. rewrite <- E. intros [H|H]; [congruence | auto].
      * change (lazy_group close ((c :: u) ++ v))
          with (if match_literal close (c :: u ++ v) then Some []
                else option_map (cons c) (lazy_group close (u ++ v))).
        now rewrite M0, L.
Qed.

Lemma INFO_RE_search_eq (text : str) :
  INFO_RE_search text
  = match INFO_RE_match text with
    | Some g => Some g
    | None => match text with
              | [] => None
              | _ :: text' => INFO_RE_search text'
              end
    end.
Proof. destruct text; reflexivity. Qed.

Lemma lazy_group_eq (close s : str) :
  lazy_group close s
  = if match_literal close s then Some []
    else match s with
         | [] => None
         | c :: s' => option_map (cons c) (lazy_group close s')
         end.
Proof. destruct s; reflexivity. Qed.

(** The search returns the inner text of the first block. *)
Lemma INFO_RE_search_first_block (text inner : str) :
  first_block text inner -> INFO_RE_search text = Some inner.
Proof.
  intros (pre & op & cl & post & -> & Hop & Hcl & Npre & Ninner).
  induction pre as [|c pre IH].
  - assert (E : INFO_RE_match (op ++ inner ++ cl ++ post) = Some inner).
    { unfold INFO_RE_match.
      rewrite (match_literal_app _ _ _ (proj2 Hop)), (skipn_delimiter _ _ _ Hop).
      apply lazy_group_first; [exact Ninner|].
      apply match_literal_app, Hcl. }
    simpl app. rewrite INFO_RE_search_eq, E. reflexivity.
  - rewrite starts_within_cons in Npre.
    assert (E : INFO_RE_match ((c :: pre) ++ op ++ inner ++ cl ++ post) = None).
    { unfold INFO_RE_match.
      destruct (match_literal INFO_OPEN ((c :: pre) ++ op ++ inner ++ cl ++ post))
        eqn:M; [exfalso; apply Npre; left; exact M | reflexivity]. }
    rewrite INFO_RE_search_eq, E. apply IH. tauto.
Qed.

(** A text that holds a block has a first block. *)
Lemma has_block_first_block (text : str) :
  has_block text -> exists inner, first_block text inner.
Proof.
  intros (a & op & b & cl & c & -> & Hop & Hcl).
  (* an opening delimiter at the start of a text in which a closing
     delimiter follows it *)
  assert (here : forall s u,
             match_literal INFO_OPEN s = true ->
             skipn (List.length INFO_OPEN) s = u ++ cl ++ c ->
             exists inner, first_block s inner).
  { intros s u Ms Es.
    destruct (match_literal_split _ _ Ms) as [Dop Es'].
    destruct (lazy_group_found INFO_CLOSE u (cl ++ c))
      as (g & rest & E & Mr & N & _);
      [apply match_literal_app, Hcl|].
    destruct (match_literal_split _ _ Mr) as [Dcl Er].
    exists g, [], (firstn (List.length INFO_OPEN) s),
      (firstn (List.length INFO_CLOSE) rest),
      (skipn (List.length INFO_CLOSE) rest).
    rewrite <- Er. repeat split; try apply Dop; try apply Dcl; auto.
    - simpl. rewrite <- E, <- Es. exact Es'.
    - apply not_starts_within_nil. }
  induction a as [|x a IH].
  - simpl app. apply (here _ b); [apply match_literal_app, Hop|].
    now rewrite (skipn_delimiter _ _ _ Hop).
  - destruct (match_literal INFO_OPEN ((x :: a) ++ op ++ b ++ cl ++ c)) eqn:M.
    + apply (here _ (skipn (List.length INFO_OPEN) ((x :: a) ++ op) ++ b)); [exact M|].
      rewrite <- app_assoc.
      replace ((x :: a) ++ op ++ b ++ cl ++ c)
        with (((x :: a) ++ op) ++ b ++ cl ++ c) by now rewrite <- app_assoc.
      rewrite skipn_app.
      replace (List.length INFO_OPEN - List.length ((x :: a) ++ op)) with 0;
        [reflexivity|].
      destruct Hop as [L _]. rewrite length_app, L. cbn [List.length]. lia.
    + destruct IH as (inner & pre & op' & cl' & post' & E & Ho & Hc & Np & Ni).
      exists inner, (x :: pre), op', cl', post'.
      repeat split; try apply Ho; try apply Hc; auto.
      * simpl. now rewrite E.
      * rewrite starts_within_cons. rewrite <- E.
        change ((x :: a) ++ op ++ b ++ cl ++ c)
          with (x :: a ++ op ++ b ++ cl ++ c) in M.
        intros [H|H]; [congruence | auto].
Qed.

(** [lstrip] removes a run of white space and stops at the first
    character that is not white space. *)
Lemma lstrip_spec (s : str) :
  exists l, s = l ++ lstrip s /\ forallb isspace l = true
            /\ match lstrip s with c :: _ => isspace c = false | [] => True end.
Proof.
  induction s as [|c s (l & E & Hl & Hs)].
  - exists []. simpl. auto.
  - simpl. destruct (isspace c) eqn:Hc.
    + exists (c :: l). simpl. rewrite Hc, Hl. split; [now rewrite <- E | auto].
    + exists []. simpl. auto.
Qed.

Lemma strip_trimmed (s : str) : trimmed s (strip s).
Proof.
  unfold strip, rstrip.
  destruct (lstrip_spec s) as (l & E & Hl & Hs).
  destruct (lstrip_spec (rev (lstrip s))) as (t & E' & Ht & Hs').
  set (m := lstrip s) in *. set (r := lstrip (rev m)) in *.
  assert (Em : m = rev r ++ rev t).
  { rewrite <- rev_app_distr, <- E'. symmetry. apply rev_involutive. }
  exists l, (rev t). repeat split.
  - now rewrite <- Em.
  - exact Hl.
  - rewrite forallb_forall in *. intros x Hx. apply Ht. now apply in_rev.
  - destruct (rev r) as [|c r'] eqn:Er; [exact I|].
    rewrite Em in Hs. exact Hs.
  - rewrite rev_involutive. exact Hs'.
Qed.

End ExtractFacts.


(** ** Strings *)

Section StringFacts.

Lemma startswith_app (p a b : str) :
  startswith p (a ++ b) = true ->
  startswith p a = true \/ (startswith a p = true /\ a <> p).
Proof.
  revert a; induction p as [|c p IH]; intros a H; [left; reflexivity|].
  destruct a as [|x a]; [right; split; [reflexivity | discriminate]|].
  simpl in H. apply andb_true_iff in H as [H1 H2].
  apply N.eqb_eq in H1 as <-.
  destruct (IH _ H2) as [H | [H N]].
  - left. simpl. now rewrite N.eqb_refl.
  - right. split; [simpl; now rewrite N.eqb_refl | congruence].
Qed.

Lemma startswith_app_l (p a b : str) :
  startswith p a = true -> startswith p (a ++ b) = true.
Proof.
  revert a; induction p as [|c p IH]; intros [|x a]; simpl; try easy.
  intros H. apply andb_true_iff in H as [H1 H2].
  now rewrite H1, IH.
Qed.

Lemma contains_eq (p s : str) :
  contains p s
  = startswith p s
    || match s with [] => false | _ :: s' => contains p s' end.
Proof. destruct s; reflexivity. Qed.

Lemma contains_app_l (p a b : str) :
  contains p a = true -> contains p (a ++ b) = true.
Proof.
  induction a as [|x a IH]; intros H.
  - simpl in H. rewrite orb_false_r in H. rewrite contains_eq.
    destruct p; [reflexivity | discriminate].
  - simpl app. rewrite contains_eq. rewrite contains_eq in H.
    apply orb_true_iff in H as [H|H].
    + change (x :: a ++ b) with ((x :: a) ++ b).
      now rewrite (startswith_app_l _ _ b H).
    + rewrite (IH H). apply orb_true_r.
Qed.

Lemma contains_app_r (p a b : str) :
  contains p b = true -> contains p (a ++ b) = true.
Proof.
  intros H. induction a as [|x a IH]; [exact H|].
  simpl app. rewrite contains_eq, IH. apply orb_true_r.
Qed.

Lemma no_start_sound (p a b : str) :
  no_start p a = true -> contains p (a ++ b) = contains p b.
Proof.
  induction a as [|x a IH]; intros H; [reflexivity|].
  cbn [no_start] in H.
  apply andb_true_iff in H as [H H3]. apply andb_true_iff in H as [H1 H2].
  simpl app. rewrite contains_eq, (IH H3).
  destruct (startswith p (x :: a ++ b)) eqn:E; [|reflexivity].
  apply (startswith_app p (x :: a) b) in E as [E | [E _]].
  - rewrite E in H1. discriminate.
  - rewrite E in H2. discriminate.
Qed.

(** A text without the first character of [p] holds no start of an
    occurrence of [p]. *)
Lemma no_first_char_sound (c : N) (p a b : str) :
  Forall (fun x => x <> c) a ->
  contains (c :: p) (a ++ b) = contains (c :: p) b.
Proof.
  induction 1 as [|x a Hx _ IH]; [reflexivity|].
  simpl app. rewrite contains_eq, IH.
  cbn [startswith]. destruct (N.eqb_spec c x); [congruence | reflexivity].
Qed.

Lemma startswith_app_entry (p a t : str) :
  startswith p (a ++ t) = true ->
  startswith p a = true
  \/ (List.length a < List.length p
      /\ startswith (skipn (List.length a) p) t = true).
Proof.
  revert a; induction p as [|c p IH]; intros a H; [left; reflexivity|].
  destruct a as [|x a]; [right; split; [simpl; lia | exact H]|].
  simpl in H. apply andb_true_iff in H as [H1 H2].
  destruct (IH _ H2) as [H | [L H]].
  - left. simpl. now rewrite H1.
  - right. split; [simpl; lia | exact H].
Qed.

Lemma no_entry_sound (p a t : str) :
  no_entry p t = true ->
  contains p (a ++ t) = contains p a || contains p t.
Proof.
  intros H. induction a as [|x a IH].
  - simpl app. destruct (contains p []) eqn:E; [|reflexivity].
    simpl in E. rewrite orb_false_r in E.
    destruct p; [|discriminate]. destruct t; reflexivity.
  - simpl app. rewrite contains_eq, IH, (contains_eq p (x :: a)).
    rewrite <- orb_assoc. f_equal.
    destruct (startswith p (x :: a ++ t)) eqn:E.
    + apply (startswith_app_entry p (x :: a) t) in E as [E | [L E]];
        [now rewrite E|].
      exfalso. unfold no_entry in H. rewrite forallb_forall in H.
      specialize (H (List.length (x :: a))).
      rewrite E in H. discriminate H.
      apply in_seq. simpl in *. lia.
    + destruct (startswith p (x :: a)) eqn:E'; [|reflexivity].
      change (x :: a ++ t) with ((x :: a) ++ t) in E.
      now rewrite (startswith_app_l _ _ t E') in E.
Qed.

(** Replacing one character. *)
Lemma replace_char (o : N) (new s : str) :
  replace [o] new s = flat_map (fun c => if (c =? o)%N then new else [c]) s.
Proof.
  unfold replace. induction s as [|c s IH]; [reflexivity|].
  cbn [replace_from startswith flat_map List.length Nat.sub].
  rewrite IH, (N.eqb_sym o c). destruct (c =? o)%N; reflexivity.
Qed.

End StringFacts.


(** ** Escaping *)

Section EscapeFacts.

Lemma flat_map_flat_map (A B C : Type) (f : A -> list B) (g : B -> list C)
    (l : list A) :
  flat_map g (flat_map f l) = flat_map (fun x => flat_map g (f x)) l.
Proof.
  induction l as [|x l IH]; [reflexivity|].
  simpl. now rewrite flat_map_app, IH.
Qed.

(** [html.escape] works character by character. *)
Lemma escape_flat_map (s : str) : Html.escape s = flat_map escape_char s.
Proof.
  unfold Html.escape.
  change (lit "&") with [chr "&"]. change (lit "<") with [chr "<"].
  change (lit ">") with [chr ">"]. change (lit "'") with [chr "'"].
  rewrite !replace_char, !flat_map_flat_map.
  apply flat_map_ext. intros c. unfold escape_char.
  destruct (N.eqb_spec c (chr "&")) as [->|N1]; [reflexivity|].
  destruct (N.eqb_spec c (chr "<")) as [->|N2]; [reflexivity|].
  destruct (N.eqb_spec c (chr ">")) as [->|N3]; [reflexivity|].
  destruct (N.eqb_spec c Html.quot) as [->|N4]; [reflexivity|].
  destruct (N.eqb_spec c (chr "'")) as [->|N5]; [reflexivity|].
  cbn [flat_map app].
  repeat match goal with
         | H : c <> ?k |- context [(c =? ?k)%N] =>
             rewrite (proj2 (N.eqb_neq c k) H); cbn [flat_map app]
         end.
  reflexivity.
Qed.

Lemma escape_app (s t : str) :
  Html.escape (s ++ t) = Html.escape s ++ Html.escape t.
Proof. rewrite !escape_flat_map. apply flat_map_app. Qed.

(** An escaped text holds no markup character. *)
Lemma escape_no_markup (s : str) :
  Forall (fun c => is_markup c = false) (Html.escape s).
Proof.
  rewrite escape_flat_map. induction s as [|c s IH]; [constructor|].
  cbn [flat_map]. apply Forall_app. split; [|exact IH].
  unfold escape_char.
  destruct (N.eqb_spec c (chr "&")); [repeat constructor|].
  destruct (N.eqb_spec c (chr "<")) as [|N2]; [repeat constructor|].
  destruct (N.eqb_spec c (chr ">")) as [|N3]; [repeat constructor|].
  destruct (N.eqb_spec c Html.quot) as [|N4]; [repeat constructor|].
  destruct (N.eqb_spec c (chr "'")) as [|N5]; [repeat constructor|].
  constructor; [|constructor]. unfold is_markup.
  apply N.eqb_neq in N2, N3, N4, N5. now rewrite N2, N3, N4, N5.
Qed.

Lemma escape_no_char (c : N) (s : str) :
  is_markup c = true -> Forall (fun x => x <> c) (Html.escape s).
Proof.
  intros Hc. eapply Forall_impl; [|apply escape_no_markup].
  intros x Hx ->. congruence.
Qed.

(** A text without ampersand, markup character or quote is escaped to
    itself. *)
Lemma escape_plain (s : str) :
  Forall (fun c => is_markup c = false /\ c <> chr "&") s ->
  Html.escape s = s.
Proof.
  rewrite escape_flat_map. induction 1 as [|c s [Hm Ha] _ IH]; [reflexivity|].
  cbn [flat_map]. rewrite IH. unfold escape_char. unfold is_markup in Hm.
  apply N.eqb_neq in Ha. rewrite Ha.
  apply orb_false_iff in Hm as [Hm ->]. apply orb_false_iff in Hm as [Hm ->].
  apply orb_false_iff in Hm as [-> ->]. reflexivity.
Qed.

Section RoundTrip.

Variable html5 : str -> option str.
Hypothesis html5_amp : html5 (lit "amp;") = Some (lit "&").
Hypothesis html5_lt : html5 (lit "lt;") = Some (lit "<").
Hypothesis html5_gt : html5 (lit "gt;") = Some (lit ">").
Hypothesis html5_quot : html5 (lit "quot;") = Some [Html.quot].

Lemma startswith_char (o c : N) (s : str) :
  startswith [o] (c :: s) = (o =? c)%N.
Proof. cbn [startswith]. apply andb_true_r. Qed.

Lemma charref_sub_plain (s : str) :
  contains (lit "&") s = false -> Html.charref_sub html5 0 s = s.
Proof.
  induction s as [|c s IH]; [reflexivity|].
  rewrite contains_eq. intros H. apply orb_false_iff in H as [H1 H2].
  cbn [Html.charref_sub]. change (lit "&") with [chr "&"] in H1.
  rewrite startswith_char, N.eqb_sym in H1.
  rewrite H1, (IH H2). reflexivity.
Qed.

Lemma unescape_eq (s : str) :
  Html.unescape html5 s = Html.charref_sub html5 0 s.
Proof.
  unfold Html.unescape.
  destruct (contains (lit "&") s) eqn:E; [reflexivity|].
  symmetry. apply charref_sub_plain, E.
Qed.

Lemma charref_sub_escape_char (c : N) (rest : str) :
  Html.charref_sub html5 0 (escape_char c ++ rest)
  = c :: Html.charref_sub html5 0 rest.
Proof.
  unfold escape_char.
  destruct (N.eqb_spec c (chr "&")) as [->|N1].
  { pose proof html5_amp as E. cbn in E |- *. rewrite E. reflexivity. }
  destruct (N.eqb_spec c (chr "<")) as [->|N2].
  { pose proof html5_lt as E. cbn in E |- *. rewrite E. reflexivity. }
  destruct (N.eqb_spec c (chr ">")) as [->|N3].
  { pose proof html5_gt as E. cbn in E |- *. rewrite E. reflexivity. }
  destruct (N.eqb_spec c Html.quot) as [->|N4].
  { pose proof html5_quot as E. cbn in E |- *. rewrite E. reflexivity. }
  destruct (N.eqb_spec c (chr "'")) as [->|N5].
  { cbn. reflexivity. }
  cbn [app Html.charref_sub].
  apply N.eqb_neq in N1. rewrite N1. reflexivity.
Qed.

(** Unescaping an escaped text gives the text back. *)
Lemma unescape_escape (s : str) :
  Html.unescape html5 (Html.escape s) = s.
Proof.
  rewrite unescape_eq, escape_flat_map.
  induction s as [|c s IH]; [reflexivity|].
  cbn [flat_map]. rewrite charref_sub_escape_char, IH. reflexivity.
Qed.

End RoundTrip.

End EscapeFacts.


(** ** The page of a model *)

Section PageFacts.

(** A match of the lazy group ends at a closing delimiter. *)
Lemma lazy_group_some (close s g : str) :
  lazy_group close s = Some g ->
  exists rest, s = g ++ rest /\ match_literal close rest = true.
Proof.
  revert g; induction s as [|c s IH]; intros g; rewrite lazy_group_eq.
  - destruct (match_literal close []) eqn:M; [|discriminate].
    intros [= <-]. exists []. auto.
  - destruct (match_literal close (c :: s)) eqn:M.
    + intros [= <-]. exists (c :: s). auto.
    + destruct (lazy_group close s) as [g'|]; [|discriminate].
      intros [= <-]. destruct (IH g' eq_refl) as (rest & -> & Mr).
      exists rest. auto.
Qed.

(** The search finds something only in a text that holds a block. *)
Lemma INFO_RE_search_some (text g : str) :
  INFO_RE_search text = Some g -> has_block text.
Proof.
  induction text as [|c text IH]; rewrite INFO_RE_search_eq.
  - destruct (INFO_RE_match []) eqn:E; [|discriminate].
    unfold INFO_RE_match in E. discriminate E.
  - assert (here : forall s g', INFO_RE_match s = Some g' -> has_block s).
    { intros s g' E. unfold INFO_RE_match in E.
      destruct (match_literal INFO_OPEN s) eqn:M; [|discriminate].
      destruct (match_literal_split _ _ M) as [Dop Es].
      destruct (lazy_group_some _ _ _ E) as (rest & Er & Mr).
      destruct (match_literal_split _ _ Mr) as [Dcl Ec].
      exists [], (firstn (List.length INFO_OPEN) s), g',
        (firstn (List.length INFO_CLOSE) rest),
        (skipn (List.length INFO_CLOSE) rest).
      split; [|split; assumption].
      cbn [app]. rewrite <- Ec, <- Er. exact Es. }
    destruct (INFO_RE_match (c :: text)) eqn:E; [intros _; eapply here, E|].
    intros H. destruct (IH H) as (a & op & b & cl & d & -> & Ho & Hc).
    exists (c :: a), op, b, cl, d. auto.
Qed.

Lemma INFO_RE_search_none (text : str) :
  INFO_RE_search text = None <-> ~ has_block text.
Proof.
  split.
  - intros E H. destruct (has_block_first_block _ H) as [inner F].
    rewrite (INFO_RE_search_first_block _ _ F) in E. discriminate.
  - intros H. destruct (INFO_RE_search text) eqn:E; [|reflexivity].
    exfalso. eapply H, INFO_RE_search_some, E.
Qed.

(** [extract_info] always returns. *)
Lemma extract_info_total (bs : list byte) :
  exists info, extract_info bs = Some info.
Proof.
  unfold extract_info, read_text.
  destruct (utf8_decode_ignore_total bs) as [t ->]. cbn [option_map].
  destruct (INFO_RE_search (translate_newlines t)); eauto.
Qed.

(** The chunks of a page are passed over one by one when an occurrence
    of a text that starts with a markup character is looked for: a
    literal of the template in which no occurrence can start, or an
    escaped value. *)
Ltac skip_chunks :=
  repeat first
    [ rewrite no_start_sound by (vm_compute; reflexivity)
    | rewrite no_first_char_sound by (apply escape_no_char; reflexivity) ].

(** Without a screenshot, the page holds an image element exactly when
    the documentation does. *)
Lemma render_model_page_no_screenshot
    (title : str) (model_rel : Pathlib.PurePath)
    (info_html stylesheet_href back_href netlogo_url : str) :
  contains (lit "<img")
    (render_model_page title model_rel info_html None
       stylesheet_href back_href netlogo_url)
  = contains (lit "<img") info_html.
Proof.
  unfold render_model_page.
  change (lit "<img") with (chr "<" :: lit "img").
  skip_chunks. cbn [app].
  skip_chunks.
  rewrite no_entry_sound by (vm_compute; reflexivity).
  destruct info_html; [vm_compute; reflexivity|].
  apply orb_false_r.
Qed.

(** A page without documentation shows the placeholder, and its
    documentation container is not empty. *)
Lemma render_model_page_no_info
    (title : str) (model_rel : Pathlib.PurePath) (image_src : option str)
    (stylesheet_href back_href netlogo_url : str) :
  let page := render_model_page title model_rel [] image_src
                stylesheet_href back_href netlogo_url in
  contains
    (tpl "<div class='model-info'><p><em>No info tab found.</em></p></div>")
    page = true
  /\ contains (tpl "<div class='model-info'></div>") page = false.
Proof.
  cbv zeta. split.
  - unfold render_model_page.
    repeat (apply contains_app_r;
            try (vm_compute; reflexivity)).
  - unfold render_model_page.
    change (tpl "<div class='model-info'></div>")
      with (chr "<" :: tpl "div class='model-info'></div>").
    skip_chunks.
    destruct image_src as [[|c src]|]; cbn [app];
      repeat rewrite <- app_assoc; skip_chunks; vm_compute; reflexivity.
Qed.

End PageFacts.


(** ** Claims on [extract_info] and on the page of a model *)

(** C1.  When the text of a model file holds a documentation block
    (an opening and, after it, a closing delimiter, in any letter case and
    with any characters, line ends included, around and between them),
    the text has a first block, and [extract_info] returns the inner text
    of the first block without its leading and trailing white space. *)
Theorem extract_info_first_block (bs : list byte) (text : str) :
  read_text Ignore bs = Some text ->
  has_block text ->
  (exists inner, first_block text inner)
  /\ (forall inner, first_block text inner ->
        extract_info bs = Some (strip inner)
        /\ trimmed inner (strip inner)).
Proof.
  intros R H. split; [apply has_block_first_block, H|].
  intros inner F. split; [|apply strip_trimmed].
  unfold extract_info. rewrite R, (INFO_RE_search_first_block _ _ F).
  reflexivity.
Qed.

Lemma extract_info_first_block_witness :
  (exists inner, first_block (lit two_blocks_file) inner)
  /\ (forall inner, first_block (lit two_blocks_file) inner ->
        extract_info (bytes_of two_blocks_file) = Some (strip inner)
        /\ trimmed inner (strip inner)).
Proof.
  apply extract_info_first_block.
  - vm_compute. reflexivity.
  - exists (lit "<model>"), (lit "<INFO><![cdata["), (lit "
 # Wolves

"), (lit "]]></Info>"), (lit "<info><![CDATA[second]]></info></model>").
    repeat split; vm_compute; reflexivity.
Defined.

(** C2.  When the text of a model file holds no documentation block,
    [extract_info] returns the empty string, and the page written for the
    model shows the placeholder paragraph in its documentation container,
    which is not empty.  (The conversion of the empty text by
    Python-Markdown is the empty text.) *)
Theorem no_block_placeholder
    (markdown : str -> str) (exists_in_models : Pathlib.PurePath -> bool)
    (model_rel : Pathlib.PurePath) (bs : list byte) (text : str) :
  markdown [] = [] ->
  read_text Ignore bs = Some text ->
  ~ has_block text ->
  extract_info bs = Some []
  /\ exists page entry,
       model_page markdown exists_in_models model_rel bs = Some (page, entry)
       /\ contains
            (tpl "<div class='model-info'><p><em>No info tab found.</em></p></div>")
            (content page) = true
       /\ contains (tpl "<div class='model-info'></div>") (content page) = false.
Proof.
  intros Hmd R H.
  assert (E : extract_info bs = Some []).
  { unfold extract_info. rewrite R.
    now rewrite (proj2 (INFO_RE_search_none text) H). }
  split; [exact E|].
  unfold model_page. rewrite E, Hmd.
  eexists. eexists. split; [reflexivity|].
  cbn [content]. apply render_model_page_no_info.
Qed.

Lemma no_block_placeholder_witness :
  extract_info (bytes_of "<model><info>text</info></model>") = Some []
  /\ exists page entry,
       model_page markdown_plain (fun _ => false) wolf_sheep
         (bytes_of "<model><info>text</info></model>") = Some (page, entry)
       /\ contains
            (tpl "<div class='model-info'><p><em>No info tab found.</em></p></div>")
            (content page) = true
       /\ contains (tpl "<div class='model-info'></div>") (content page) = false.
Proof.
  apply (no_block_placeholder markdown_plain (fun _ => false) wolf_sheep
           (bytes_of "<model><info>text</info></model>")
           (lit "<model><info>text</info></model>")).
  - reflexivity.
  - vm_compute. reflexivity.
  - apply INFO_RE_search_none. vm_compute. reflexivity.
Defined.

(** C3, as the program has it.  [extract_info] never raises a decoding
    error: it returns on every file.  A file that decodes cleanly is read
    as it is, and its documentation is that of its text.  In any other
    file the undecodable bytes are deleted, nothing being put in their
    place: what decodes cleanly is kept, whatever follows it, and a byte
    at which no character starts is dropped, the file being read as the
    file without this byte, so that its documentation is that of the
    file without this byte.  Hence the text read is the clean decoding
    of some of the bytes of the file, in their order, and has the same
    documentation. *)
Theorem extract_info_ignores_undecodable :
  (forall bs, exists info, extract_info bs = Some info)
  /\ (forall bs text,
        read_text Strict bs = Some text ->
        read_text Ignore bs = Some text
        /\ extract_info bs
           = Some (match INFO_RE_search text with
                   | Some group1 => strip group1
                   | None => []
                   end))
  /\ (forall clean rest text,
        utf8_decode Strict clean = Some text ->
        utf8_decode Ignore (clean ++ rest)
        = option_map (app text) (utf8_decode Ignore rest))
  /\ (forall clean x rest,
        (exists text, utf8_decode Strict clean = Some text) ->
        ~ starts_character (x :: rest) ->
        read_text Ignore (clean ++ x :: rest) = read_text Ignore (clean ++ rest)
        /\ extract_info (clean ++ x :: rest) = extract_info (clean ++ rest))
  /\ (forall bs,
        exists kept,
          subseq kept bs
          /\ read_text Strict kept = read_text Ignore bs
          /\ extract_info kept = extract_info bs).
Proof.
  split; [exact extract_info_total|].
  split; [|split; [|split]].
  - intros bs text H. unfold read_text in H.
    destruct (utf8_decode Strict bs) as [t|] eqn:E; [|discriminate].
    injection H as <-.
    assert (R : read_text Ignore bs = Some (translate_newlines t))
      by (unfold read_text; now rewrite (utf8_decode_strict_ignore _ _ E)).
    split; [exact R|]. unfold extract_info. rewrite R.
    destruct (INFO_RE_search (translate_newlines t)); reflexivity.
  - intros clean rest text E. apply utf8_decode_clean_prefix, E.
  - intros clean x rest [text E] H.
    assert (R : read_text Ignore (clean ++ x :: rest)
                = read_text Ignore (clean ++ rest)).
    { unfold read_text.
      rewrite (utf8_decode_clean_prefix Ignore clean (x :: rest) text E).
      rewrite (utf8_decode_clean_prefix Ignore clean rest text E).
      now rewrite (utf8_decode_ignore_drop x rest H). }
    split; [exact R|]. unfold extract_info. now rewrite R.
  - intros bs. destruct (utf8_decode_ignore_kept bs) as (kept & Hk & Hd).
    assert (R : read_text Strict kept = read_text Ignore bs)
      by (unfold read_text; now rewrite Hd).
    exists kept. split; [exact Hk|]. split; [exact R|].
    destruct (utf8_decode_ignore_total bs) as [t Et].
    rewrite Et in Hd.
    unfold extract_info, read_text.
    now rewrite (utf8_decode_strict_ignore _ _ Hd), Et.
Qed.

Lemma extract_info_ignores_undecodable_witness :
  extract_info bad_byte_file
  = extract_info (bytes_of "<info><![CDATA[a" ++ bytes_of "b]]></info>").
Proof.
  refine (proj2
            (proj1 (proj2 (proj2 (proj2 extract_info_ignores_undecodable)))
               (bytes_of "<info><![CDATA[a") xff (bytes_of "b]]></info>")
               _ _)).
  - eexists. vm_compute. reflexivity.
  - intros (k & c & E). destruct k as [|k]; [discriminate E|].
    vm_compute in E. discriminate E.
Defined.

(** C3 as stated fails: the byte FF cannot be decoded, and
    [extract_info] returns the documentation [ab] for a file whose
    documentation block holds this byte between [a] and [b]; it holds no
    replacement character, which the handler [Replace] would have put in
    the text, and so in the documentation. *)
Lemma extract_info_no_replacement_character :
  read_text Strict bad_byte_file = None
  /\ extract_info bad_byte_file = Some (lit "ab")
  /\ read_text Ignore bad_byte_file = Some (lit "<info><![CDATA[ab]]></info>")
  /\ read_text Replace bad_byte_file
     = Some (lit "<info><![CDATA[a" ++ [0xFFFD%N] ++ lit "b]]></info>")
  /\ option_map (fun text => option_map strip (INFO_RE_search text))
       (read_text Replace bad_byte_file)
     = Some (Some [97; 0xFFFD; 98]%N)
  /\ read_text Ignore [xff] = Some []
  /\ read_text Replace [xff] = Some [0xFFFD%N].
Proof. repeat split. Qed.


(** C4.  The page is a fixed template whose slots hold the title and the
    link values only in escaped form; an escaped text holds none of the
    characters that delimit tags and attribute values; and unescaping an
    escaped text gives the text back.  (The table of named references
    has the entries of [amp], [lt], [gt] and [quot].) *)
Theorem render_model_page_escapes (html5 : str -> option str) :
  html5 (lit "amp;") = Some (lit "&") ->
  html5 (lit "lt;") = Some (lit "<") ->
  html5 (lit "gt;") = Some (lit ">") ->
  html5 (lit "quot;") = Some [Html.quot] ->
  (exists t0 t1 t2 t3 t4 t5 t6 t7 i0 i1 i2 : str,
     forall title model_rel info_html image_src
            stylesheet_href back_href netlogo_url,
       render_model_page title model_rel info_html image_src
         stylesheet_href back_href netlogo_url
       = t0 ++ Html.escape title
         ++ t1 ++ Html.escape stylesheet_href
         ++ t2 ++ Html.escape back_href
         ++ t3 ++ Html.escape title
         ++ t4 ++ Html.escape netlogo_url
         ++ t5
         ++ match image_src with
            | Some (c :: src) =>
                i0 ++ Html.escape (c :: src) ++ i1 ++ Html.escape title ++ i2
            | _ => []
            end
         ++ t6 ++ match info_html with [] => no_info | _ => info_html end
         ++ t7)
  /\ (forall s, Forall (fun c => is_markup c = false) (Html.escape s))
  /\ (forall s, Html.unescape html5 (Html.escape s) = s).
Proof.
  intros Hamp Hlt Hgt Hquot. split; [|split].
  - do 11 eexists. intros title model_rel info_html image_src css back url.
    unfold render_model_page.
    rewrite (app_assoc (tpl "'>") [0x2190%N]).
    rewrite (app_assoc (tpl "'>" ++ [0x2190%N])).
    destruct image_src as [[|c src]|]; cbv beta iota;
      try rewrite (app_assoc (tpl "' ") (tpl "alt='Screenshot of "));
      reflexivity.
  - apply escape_no_markup.
  - apply unescape_escape; assumption.
Qed.

Lemma render_model_page_escapes_witness :
  (exists t0 t1 t2 t3 t4 t5 t6 t7 i0 i1 i2 : str,
     forall title model_rel info_html image_src
            stylesheet_href back_href netlogo_url,
       render_model_page title model_rel info_html image_src
         stylesheet_href back_href netlogo_url
       = t0 ++ Html.escape title
         ++ t1 ++ Html.escape stylesheet_href
         ++ t2 ++ Html.escape back_href
         ++ t3 ++ Html.escape title
         ++ t4 ++ Html.escape netlogo_url
         ++ t5
         ++ match image_src with
            | Some (c :: src) =>
                i0 ++ Html.escape (c :: src) ++ i1 ++ Html.escape title ++ i2
            | _ => []
            end
         ++ t6 ++ match info_html with [] => no_info | _ => info_html end
         ++ t7)
  /\ (forall s, Forall (fun c => is_markup c = false) (Html.escape s))
  /\ (forall s, Html.unescape Html.html5_core (Html.escape s) = s).
Proof.
  apply (render_model_page_escapes Html.html5_core); reflexivity.
Defined.

(** C7, as the program has it.  For the model file
    [Biology/Wolf Sheep.nlogox] with a screenshot, whatever the file
    holds: the page is written at [models/Biology/Wolf Sheep.html]; its
    image element has the source
    [../../../models/Biology/Wolf Sheep.png], three levels up, where the
    screenshot lies in the directory of the models; its back link goes
    to [../../index.html]; and its run URL ends with
    [Biology/Wolf%20Sheep.nlogox]. *)
Theorem wolf_sheep_page
    (markdown : str -> str) (exists_in_models : Pathlib.PurePath -> bool)
    (bs : list byte) :
  exists_in_models (Pathlib.with_suffix wolf_sheep (lit ".png")) = true ->
  exists page,
    model_page markdown exists_in_models wolf_sheep bs
    = Some (page, ([lit "Biology"; lit "Wolf Sheep.nlogox"],
                   lit "models/Biology/Wolf Sheep.html"))
    /\ output_path page = lit "models/Biology/Wolf Sheep.html"
    /\ contains
         (tpl "<img src='../../../models/Biology/Wolf Sheep.png' alt='Screenshot of Wolf Sheep' />")
         (content page) = true
    /\ contains (tpl "<a class='back-link' href='../../index.html'>")
         (content page) = true
    /\ contains
         (tpl "<a class='run-button' href='https://netlogoweb.org/launch#https://netlogoweb.org/assets/modelslib/Biology/Wolf%20Sheep.nlogox'")
         (content page) = true.
Proof.
  intros Hpng. unfold model_page.
  destruct (extract_info_total bs) as [info ->].
  eexists. split; [reflexivity|]. split; [reflexivity|].
  cbn [content]. unfold relative_image_path. rewrite Hpng.
  generalize (markdown info). intros info_html.
  repeat split; vm_compute; reflexivity.
Qed.

Lemma wolf_sheep_page_witness :
  exists page,
    model_page markdown_plain (fun _ => true) wolf_sheep
      (bytes_of "<model><info><![CDATA[Text]]></info></model>")
    = Some (page, ([lit "Biology"; lit "Wolf Sheep.nlogox"],
                   lit "models/Biology/Wolf Sheep.html"))
    /\ output_path page = lit "models/Biology/Wolf Sheep.html"
    /\ contains
         (tpl "<img src='../../../models/Biology/Wolf Sheep.png' alt='Screenshot of Wolf Sheep' />")
         (content page) = true
    /\ contains (tpl "<a class='back-link' href='../../index.html'>")
         (content page) = true
    /\ contains
         (tpl "<a class='run-button' href='https://netlogoweb.org/launch#https://netlogoweb.org/assets/modelslib/Biology/Wolf%20Sheep.nlogox'")
         (content page) = true.
Proof.
  apply (wolf_sheep_page markdown_plain (fun _ => true)). reflexivity.
Defined.

(** C7 as stated fails: in the page of the scenario no image element has
    the source [../../models/Biology/Wolf Sheep.png]; the only image
    element of the page has one more [../]. *)
Lemma wolf_sheep_image_source :
  option_map
    (fun r : site_file * (list str * str) =>
       (contains (tpl "<img src='../../models/Biology/Wolf Sheep.png'")
          (content (fst r)),
        contains (tpl "src='../../models/") (content (fst r)),
        contains (tpl "<img src='../../../models/Biology/Wolf Sheep.png'")
          (content (fst r))))
    (model_page markdown_plain (fun _ => true) wolf_sheep
       (bytes_of "<model><info><![CDATA[Text]]></info></model>"))
  = Some (false, false, true).
Proof. vm_compute. reflexivity. Qed.

(** C8, as the program has it.  When no screenshot was found, the page
    has no image element of its own: it holds an image element exactly
    when the documentation fragment holds one. *)
Theorem render_model_page_without_screenshot
    (title : str) (model_rel : Pathlib.PurePath)
    (info_html stylesheet_href back_href netlogo_url : str) :
  contains (lit "<img")
    (render_model_page title model_rel info_html None
       stylesheet_href back_href netlogo_url)
  = contains (lit "<img") info_html.
Proof. apply render_model_page_no_screenshot. Qed.

(** C8 as stated fails: a documentation fragment with an image, as
    Python-Markdown writes it for [![](x.png)], puts an image element in
    a page that has no screenshot. *)
Lemma render_model_page_image_in_documentation :
  contains (lit "<img")
    (render_model_page (lit "Fire") wolf_sheep
       (tpl "<p><img alt='' src='x.png' /></p>") None
       (lit "../styles.css") (lit "../index.html") (lit "u"))
  = true.
Proof. vm_compute. reflexivity. Qed.

(** C9 fails on the code.  The list entry of the model file
    [a.nlogox.nlogox] shows the name [a]: every [.nlogox] of the name is
    removed, not the trailing one only.  The title of the page of the
    same file, which is the stem of the name, is [a.nlogox].  The link is
    the stored path. *)
Theorem render_tree_double_extension (lower : str -> str) :
  render_tree lower (Tree None (Some [double_extension])) [] false
  = tpl "<ul>
<li><a href='models/a.nlogox.html' target='_blank' rel='noopener'><img class='icon file-icon' src='assets/model.png' alt='' />a</a></li>
</ul>"
  /\ Pathlib.stem {| Pathlib.parent_parts := [];
                     Pathlib.name := name double_extension |}
     = lit "a.nlogox".
Proof. split; vm_compute; reflexivity. Qed.


(** ** Order and sorting *)

Section OrderFacts.

Lemma eqb_spec (s t : str) : reflect (s = t) (eqb s t).
Proof.
  revert t; induction s as [|c s IH]; intros [|d t]; simpl;
    try (constructor; congruence).
  destruct (N.eqb_spec c d) as [->|N]; simpl.
  - destruct (IH t) as [->|N]; constructor; congruence.
  - constructor; congruence.
Qed.

Lemma eqb_refl (s : str) : eqb s s = true.
Proof. destruct (eqb_spec s s); congruence. Qed.

Lemma ltb_irrefl (s : str) : ltb s s = false.
Proof.
  induction s as [|c s IH]; [reflexivity|].
  simpl. now rewrite N.ltb_irrefl, N.eqb_refl, IH.
Qed.

Lemma ltb_trans (s t u : str) :
  ltb s t = true -> ltb t u = true -> ltb s u = true.
Proof.
  revert t u; induction s as [|a s IH]; intros [|b t] [|c u]; simpl;
    try easy.
  rewrite !orb_true_iff, !andb_true_iff, !N.ltb_lt, !N.eqb_eq.
  intros [H1 | [-> H1]] [H2 | [-> H2]].
  - left. lia.
  - left. exact H1.
  - left. exact H2.
  - right. split; [reflexivity|]. eapply IH; eassumption.
Qed.

(** Two strings of which neither is smaller than the other are
    equal. *)
Lemma ltb_total (s t : str) :
  ltb s t = false -> ltb t s = false -> s = t.
Proof.
  revert t; induction s as [|a s IH]; intros [|b t]; simpl; try easy.
  rewrite !orb_false_iff, !andb_false_iff, !N.ltb_ge, !N.eqb_neq.
  intros [H1 H1'] [H2 H2'].
  assert (a = b) by lia. subst b.
  f_equal. apply IH; tauto.
Qed.

Lemma leb_trans (s t u : str) :
  leb s t = true -> leb t u = true -> leb s u = true.
Proof.
  unfold leb. rewrite !negb_true_iff. intros H1 H2.
  destruct (ltb u s) eqn:E; [|reflexivity].
  destruct (ltb t s) eqn:E1; [discriminate|].
  destruct (ltb u t) eqn:E2; [discriminate|].
  destruct (ltb s t) eqn:E3.
  - rewrite (ltb_trans _ _ _ E E3) in E2. discriminate.
  - rewrite (ltb_total _ _ E3 E1) in E. congruence.
Qed.

Lemma ltb_leb (s t : str) : ltb s t = true -> leb s t = true.
Proof.
  unfold leb. intros H. destruct (ltb t s) eqn:E; [|reflexivity].
  simpl. pose proof (ltb_trans _ _ _ H E) as C.
  rewrite ltb_irrefl in C. discriminate.
Qed.

End OrderFacts.

Section SortedFacts.

Variables (A : Type) (key : A -> str).

Lemma insert_sorted_perm (x : A) (l : list A) :
  Permutation (x :: l) (insert_sorted key x l).
Proof.
  induction l as [|y l IH]; simpl; [reflexivity|].
  destruct (ltb (key y) (key x)); [|reflexivity].
  rewrite perm_swap. now apply perm_skip.
Qed.

Lemma sorted_perm (l : list A) : Permutation l (sorted key l).
Proof.
  induction l as [|x l IH]; simpl; [reflexivity|].
  rewrite <- insert_sorted_perm. now apply perm_skip.
Qed.

Lemma insert_sorted_sorted (x : A) (l : list A) :
  StronglySorted (key_le key) l -> StronglySorted (key_le key) (insert_sorted key x l).
Proof.
  induction 1 as [|y l Hl IH Hy]; simpl; [repeat constructor|].
  destruct (ltb (key y) (key x)) eqn:E.
  - constructor; [exact IH|].
    eapply Permutation_Forall; [apply insert_sorted_perm|].
    constructor; [apply ltb_leb, E | exact Hy].
  - assert (Hxy : key_le key x y) by (unfold key_le, leb; now rewrite E).
    constructor; [constructor; assumption|].
    constructor; [exact Hxy|].
    eapply Forall_impl; [|exact Hy].
    intros z Hz. eapply leb_trans; eassumption.
Qed.

(** The result of [sorted] is in the order of the keys. *)
Lemma sorted_sorted (l : list A) : StronglySorted (key_le key) (sorted key l).
Proof.
  induction l as [|x l IH]; simpl; [constructor|].
  now apply insert_sorted_sorted.
Qed.

(** [sorted] is stable: the elements of a given key keep their
    order. *)
Lemma insert_sorted_stable (k : str) (x : A) (l : list A) :
  filter (fun y => eqb (key y) k) (insert_sorted key x l)
  = filter (fun y => eqb (key y) k) (x :: l).
Proof.
  induction l as [|y l IH]; [reflexivity|].
  cbn [insert_sorted]. destruct (ltb (key y) (key x)) eqn:E; [|reflexivity].
  cbn [filter] in *. rewrite IH.
  destruct (eqb_spec (key x) k) as [Hx|Hx]; [|reflexivity].
  destruct (eqb_spec (key y) k) as [Hy|Hy]; [|reflexivity].
  rewrite Hx, Hy, ltb_irrefl in E. discriminate.
Qed.

Lemma sorted_stable (k : str) (l : list A) :
  filter (fun y => eqb (key y) k) (sorted key l)
  = filter (fun y => eqb (key y) k) l.
Proof.
  induction l as [|x l IH]; [reflexivity|].
  cbn [sorted]. rewrite insert_sorted_stable. cbn [filter].
  now rewrite IH.
Qed.

(** Lists in strict order with the same elements are equal. *)
Lemma strictly_sorted_unique (l1 l2 : list A) :
  StronglySorted (key_lt key) l1 -> StronglySorted (key_lt key) l2 ->
  Permutation l1 l2 -> l1 = l2.
Proof.
  intros S1; revert l2; induction S1 as [|x l1 S1 IH Hx];
    intros l2 S2 P.
  - apply Permutation_nil in P. now subst.
  - destruct S2 as [|y l2 S2 Hy];
      [apply Permutation_sym, Permutation_nil in P; discriminate|].
    assert (x = y).
    { assert (Ix : In x (y :: l2))
        by (eapply Permutation_in; [exact P | left; reflexivity]).
      assert (Iy : In y (x :: l1))
        by (eapply Permutation_in;
            [apply Permutation_sym, P | left; reflexivity]).
      destruct Ix as [->|Ix]; [reflexivity|].
      destruct Iy as [->|Iy]; [reflexivity|].
      rewrite Forall_forall in Hx, Hy.
      pose proof (ltb_trans _ _ _ (Hx _ Iy) (Hy _ Ix)) as C.
      unfold key_lt in C. rewrite ltb_irrefl in C. discriminate. }
    subst y. f_equal. apply IH; [exact S2|].
    eapply Permutation_cons_inv, P.
Qed.

Lemma NoDup_sorted_strict (l : list A) :
  NoDup (map key l) -> StronglySorted (key_le key) l -> StronglySorted (key_lt key) l.
Proof.
  induction l as [|x l IH]; intros N S; [constructor|].
  simpl in N. apply NoDup_cons_iff in N as [Nx N].
  apply StronglySorted_inv in S as [S Hx].
  constructor; [now apply IH|].
  rewrite Forall_forall in *. intros y Hy.
  specialize (Hx y Hy). unfold key_le, leb in Hx. unfold key_lt.
  apply negb_true_iff in Hx.
  destruct (ltb (key x) (key y)) eqn:E; [reflexivity|].
  exfalso. apply Nx. rewrite (ltb_total _ _ E Hx).
  now apply in_map.
Qed.

(** When the keys are pairwise different, [sorted] gives the same list
    for every order of the input. *)
Lemma sorted_permutation (l1 l2 : list A) :
  NoDup (map key l1) -> Permutation l1 l2 ->
  sorted key l1 = sorted key l2.
Proof.
  intros N P. apply strictly_sorted_unique.
  - apply NoDup_sorted_strict; [|apply sorted_sorted].
    eapply Permutation_NoDup; [|exact N].
    apply Permutation_map, sorted_perm.
  - apply NoDup_sorted_strict; [|apply sorted_sorted].
    eapply Permutation_NoDup; [|exact N].
    apply Permutation_map. rewrite <- sorted_perm. exact P.
  - now rewrite <- !sorted_perm.
Qed.

End SortedFacts.

(** Sorting commutes with a map that keeps the keys. *)
Lemma sorted_map (A B : Type) (key : B -> str) (f : A -> B) (l : list A) :
  sorted key (map f l) = map f (sorted (fun x => key (f x)) l).
Proof.
  induction l as [|x l IH]; [reflexivity|].
  cbn [map sorted]. rewrite IH. generalize (sorted (fun x => key (f x)) l).
  intros s. induction s as [|y s IHs]; [reflexivity|].
  cbn [map insert_sorted]. destruct (ltb (key (f y)) (key (f x)));
    [cbn [map]; now rewrite IHs | reflexivity].
Qed.


(** ** Dictionaries *)

Section DictFacts.

Variable V : Type.

Lemma dict_get_set_same (k : str) (v : V) (d : dict V) :
  dict_get k (dict_set k v d) = Some v.
Proof.
  induction d as [|[k' v'] d IH]; simpl.
  - now rewrite eqb_refl.
  - destruct (eqb k k') eqn:E; simpl; rewrite ?eqb_refl, ?E; auto.
Qed.

Lemma dict_get_set_other (k k' : str) (v : V) (d : dict V) :
  k' <> k -> dict_get k' (dict_set k v d) = dict_get k' d.
Proof.
  intros N. induction d as [|[k0 v0] d IH]; simpl.
  - destruct (eqb_spec k' k); [contradiction | reflexivity].
  - destruct (eqb_spec k k0) as [->|N0]; simpl.
    + destruct (eqb_spec k' k0); [contradiction | reflexivity].
    + destruct (eqb k' k0); [reflexivity | exact IH].
Qed.

Lemma dict_get_In (k : str) (v : V) (d : dict V) :
  dict_get k d = Some v -> In (k, v) d.
Proof.
  induction d as [|[k' v'] d IH]; simpl; [discriminate|].
  destruct (eqb_spec k k') as [->|N].
  - intros [= ->]. now left.
  - intros H. right. now apply IH.
Qed.

Lemma dict_get_None (k : str) (d : dict V) :
  dict_get k d = None <-> ~ In k (map fst d).
Proof.
  induction d as [|[k' v'] d IH]; simpl; [tauto|].
  destruct (eqb_spec k k') as [->|N].
  - split; [discriminate | tauto].
  - rewrite IH. split; [intros H [E|I]; [congruence | tauto] | tauto].
Qed.

Lemma In_dict_get (k : str) (v : V) (d : dict V) :
  NoDup (map fst d) -> In (k, v) d -> dict_get k d = Some v.
Proof.
  induction d as [|[k' v'] d IH]; simpl; [tauto|].
  intros N. apply NoDup_cons_iff in N as [N1 N2].
  intros [[= -> ->] | I].
  - now rewrite eqb_refl.
  - destruct (eqb_spec k k') as [->|N0]; [|now apply IH].
    exfalso. apply N1. change k' with (fst (k', v)). now apply in_map.
Qed.

(** Dictionaries with the same lookups hold the same items. *)
Lemma dict_permutation (d1 d2 : dict V) :
  NoDup (map fst d1) -> NoDup (map fst d2) ->
  (forall k, dict_get k d1 = dict_get k d2) ->
  Permutation d1 d2.
Proof.
  intros N1 N2 H.
  apply NoDup_Permutation.
  - eapply NoDup_map_inv, N1.
  - eapply NoDup_map_inv, N2.
  - intros [k v]. split; intros I.
    + apply dict_get_In. rewrite <- H. now apply In_dict_get.
    + apply dict_get_In. rewrite H. now apply In_dict_get.
Qed.

Lemma dict_set_keys (k : str) (v : V) (d : dict V) :
  map fst (dict_set k v d)
  = if dict_in k d then map fst d else map fst d ++ [k].
Proof.
  unfold dict_in. induction d as [|[k' v'] d IH]; simpl; [reflexivity|].
  destruct (eqb_spec k k') as [->|N]; simpl; [reflexivity|].
  rewrite IH. now destruct (dict_get k d).
Qed.

Lemma dict_set_NoDup (k : str) (v : V) (d : dict V) :
  NoDup (map fst d) -> NoDup (map fst (dict_set k v d)).
Proof.
  intros N. rewrite dict_set_keys. unfold dict_in.
  destruct (dict_get k d) eqn:E; [exact N|].
  apply dict_get_None in E.
  apply NoDup_app; [exact N | apply NoDup_cons; [intros [] | constructor]|].
  intros x Hx [<-|[]]. contradiction.
Qed.

Lemma dict_set_In (k : str) (v : V) (d : dict V) (item : str * V) :
  In item (dict_set k v d) -> item = (k, v) \/ In item d.
Proof.
  induction d as [|[k' v'] d IH]; simpl; [intuition congruence|].
  destruct (eqb k k'); simpl; [intuition congruence|].
  intros [E|I]; [tauto|]. destruct (IH I); tauto.
Qed.

End DictFacts.

Lemma dict_get_map (A B : Type) (f : str -> A -> B) (k : str) (d : dict A) :
  dict_get k (map (fun item => (fst item, f (fst item) (snd item))) d)
  = option_map (f k) (dict_get k d).
Proof.
  induction d as [|[k' v] d IH]; simpl; [reflexivity|].
  destruct (eqb_spec k k') as [->|N]; [reflexivity | exact IH].
Qed.

(** ** The tree *)

(** Induction on a tree, with the property at hand for every subfolder. *)
Lemma tree_nested_ind (P : tree -> Prop) :
  (forall c f,
      Forall (fun item => P (snd item)) (children_or_empty (Tree c f)) ->
      P (Tree c f)) ->
  forall t, P t.
Proof.
  intros H. fix IH 1. intros [c f]. apply H.
  destruct c as [d|]; [|constructor]. simpl.
  revert d. fix IHd 1. intros [|item d]; constructor; [apply IH | apply IHd].
Qed.

Lemma children_with_get (folder : str) (t : tree) :
  dict_get folder (children_with folder t) = Some (subtree_or_empty folder t).
Proof.
  unfold children_with, subtree_or_empty, dict_in.
  destruct (dict_get folder (children_or_empty t)) eqn:E; [exact E|].
  apply dict_get_set_same.
Qed.

Lemma children_with_other (folder k : str) (t : tree) :
  k <> folder ->
  dict_get k (children_with folder t) = dict_get k (children_or_empty t).
Proof.
  intros N. unfold children_with.
  destruct (dict_in folder (children_or_empty t)); [reflexivity|].
  now apply dict_get_set_other.
Qed.

(** [add_to_tree] on a single segment. *)
Lemma add_to_tree_leaf (t : tree) (leaf path : str) :
  add_to_tree t [leaf] path
  = Some (Tree (children t)
            (Some (files_or_empty t ++ [{| name := leaf; path := path |}]))).
Proof. reflexivity. Qed.

(** [add_to_tree] on a folder segment followed by other segments. *)
Lemma add_to_tree_folder (t : tree) (folder : str) (rest : list str)
    (path : str) :
  rest <> [] ->
  add_to_tree t (folder :: rest) path
  = option_map
      (fun subtree' =>
         Tree (Some (dict_set folder subtree' (children_with folder t)))
           (files t))
      (add_to_tree (subtree_or_empty folder t) rest path).
Proof.
  intros N. destruct rest as [|x rest]; [contradiction|].
  change (add_to_tree t (folder :: x :: rest) path)
    with (match dict_get folder (children_with folder t) with
          | None => None
          | Some subtree =>
              match add_to_tree subtree (x :: rest) path with
              | None => None
              | Some subtree' =>
                  Some (Tree (Some (dict_set folder subtree'
                                      (children_with folder t))) (files t))
              end
          end).
  rewrite children_with_get.
  now destruct (add_to_tree (subtree_or_empty folder t) (x :: rest) path).
Qed.

Lemma app_leaf_not_nil (folders : list str) (leaf : str) :
  folders ++ [leaf] <> [].
Proof. destruct folders; discriminate. Qed.

(** [add_to_tree] returns on every non-empty list of segments. *)
Lemma add_to_tree_total (t : tree) (folders : list str) (leaf path : str) :
  exists t', add_to_tree t (folders ++ [leaf]) path = Some t'.
Proof.
  revert t; induction folders as [|f fs IH]; intros t.
  - eexists. apply add_to_tree_leaf.
  - simpl app. rewrite add_to_tree_folder by apply app_leaf_not_nil.
    destruct (IH (subtree_or_empty f t)) as [s ->]. eexists. reflexivity.
Qed.

(** C10.  On a tree and a non-empty list of segments, the folder
    segments [folders] followed by the file name [leaf], [add_to_tree]
    returns.  Afterwards the node reached by the folder segments has one
    more leaf record, [{name: leaf, path: path}], at the end of its
    files, and the subfolders it had; on the way to that node, the files
    of every node are as they were, and so is every subfolder other than
    the one the way goes through. *)
Theorem add_to_tree_frame (t : tree) (folders : list str) (leaf path : str) :
  exists t',
    add_to_tree t (folders ++ [leaf]) path = Some t'
    /\ files (descend folders t')
       = Some (files_or_empty (descend folders t)
               ++ [{| name := leaf; path := path |}])
    /\ children (descend folders t') = children (descend folders t)
    /\ forall before folder after,
         folders = before ++ folder :: after ->
         files (descend before t') = files (descend before t)
         /\ forall other,
              other <> folder ->
              dict_get other (children_or_empty (descend before t'))
              = dict_get other (children_or_empty (descend before t)).
Proof.
  revert t; induction folders as [|f fs IH]; intros t.
  - eexists. split; [apply add_to_tree_leaf|].
    split; [reflexivity|]. split; [reflexivity|].
    intros [|x before] folder after E; discriminate E.
  - destruct (IH (subtree_or_empty f t)) as (s' & Hadd & Hfiles & Hch & Hway).
    simpl app. rewrite add_to_tree_folder by apply app_leaf_not_nil.
    rewrite Hadd. eexists. split; [reflexivity|].
    assert (Hsub : subtree_or_empty f
                     (Tree (Some (dict_set f s' (children_with f t))) (files t))
                   = s').
    { unfold subtree_or_empty. cbn [children_or_empty children].
      now rewrite dict_get_set_same. }
    cbn [descend]. rewrite Hsub.
    split; [exact Hfiles|]. split; [exact Hch|].
    intros [|x before] folder after E.
    + injection E as <- _. cbn [descend]. split; [reflexivity|].
      intros other N. cbn [children_or_empty children].
      rewrite dict_get_set_other by exact N.
      now apply children_with_other.
    + injection E as <- E. cbn [descend]. rewrite Hsub.
      now apply (Hway before folder after).
Qed.

(** An empty list of segments is an error. *)
Lemma add_to_tree_no_segment (t : tree) (path : str) :
  add_to_tree t [] path = None.
Proof. reflexivity. Qed.

(** ** Rendering the tree *)

Lemma children_match (A : Type) (t : tree) (f : dict tree -> list A) :
  f [] = [] ->
  match children t with Some c => f c | None => [] end
  = f (children_or_empty t).
Proof. intros H. unfold children_or_empty. now destruct (children t). Qed.

(** [render_tree] in the order of the source: the subfolders are sorted,
    then each one is rendered. *)
Lemma render_tree_eq (lower : str -> str) (t : tree) (prefix : str)
    (open_root : bool) :
  render_tree lower t prefix open_root
  = let folders :=
      sorted (fun item => lower (fst item)) (children_or_empty t) in
    let files :=
      sorted (fun item => lower (name item)) (files_or_empty t) in
    join [10%N]
      ([lit "<ul>"]
       ++ flat_map
            (fun item =>
               folder_parts open_root
                 (fst item,
                  render_tree lower (snd item)
                    (prefix ++ fst item ++ lit "/") false))
            folders
       ++ map file_part files
       ++ [lit "</ul>"]).
Proof.
  destruct t as [c f]. cbv zeta.
  change (render_tree lower (Tree c f) prefix open_root)
    with (join [10%N]
            ([lit "<ul>"]
             ++ flat_map (folder_parts open_root)
                  (sorted (fun item => lower (fst item))
                     (match children (Tree c f) with
                      | Some c =>
                          map (fun item : str * tree =>
                                 (fst item,
                                  render_tree lower (snd item)
                                    (prefix ++ fst item ++ lit "/") false))
                            c
                      | None => []
                      end))
             ++ map file_part
                  (sorted (fun item => lower (name item))
                     (files_or_empty (Tree c f)))
             ++ [lit "</ul>"])).
  rewrite (children_match _ (Tree c f)
             (map (fun item : str * tree =>
                     (fst item,
                      render_tree lower (snd item)
                        (prefix ++ fst item ++ lit "/") false))))
    by reflexivity.
  rewrite (sorted_map _ _ (fun item : str * str => lower (fst item))).
  cbn [fst]. rewrite flat_map_concat_map, map_map, <- flat_map_concat_map.
  reflexivity.
Qed.

(** C6, as the program has it.  At every node, [render_tree] writes the
    entries of the subfolders, each with the rendering of its subtree,
    and after them the entries of the files; the subfolders are in
    non-decreasing order of their lowercased names, and the files in
    non-decreasing order of their lowercased stored names, extension
    included. *)
Theorem render_tree_sorted (lower : str -> str) (t : tree) (prefix : str)
    (open_root : bool) :
  exists folders files,
    Permutation folders (children_or_empty t)
    /\ Permutation files (files_or_empty t)
    /\ StronglySorted (key_le (fun item => lower (fst item))) folders
    /\ StronglySorted (key_le (fun item => lower (name item))) files
    /\ render_tree lower t prefix open_root
       = join [10%N]
           ([lit "<ul>"]
            ++ flat_map
                 (fun item =>
                    folder_parts open_root
                      (fst item,
                       render_tree lower (snd item)
                         (prefix ++ fst item ++ lit "/") false))
                 folders
            ++ map file_part files
            ++ [lit "</ul>"]).
Proof.
  exists (sorted (fun item => lower (fst item)) (children_or_empty t)),
    (sorted (fun item => lower (name item)) (files_or_empty t)).
  split; [apply Permutation_sym, sorted_perm|].
  split; [apply Permutation_sym, sorted_perm|].
  split; [apply sorted_sorted|]. split; [apply sorted_sorted|].
  apply render_tree_eq.
Qed.

(** C6 as stated fails for the names that are shown: [Fire Simple] is
    listed before [Fire], because the files are sorted with their
    extension and a space comes before a dot. *)
Lemma render_tree_shown_names_unsorted :
  render_tree lower_ascii (Tree None (Some fire_files)) [] false
  = tpl "<ul>
<li><a href='models/Fire Simple.html' target='_blank' rel='noopener'><img class='icon file-icon' src='assets/model.png' alt='' />Fire Simple</a></li>
<li><a href='models/Fire.html' target='_blank' rel='noopener'><img class='icon file-icon' src='assets/model.png' alt='' />Fire</a></li>
</ul>"
  /\ map display_name (sorted (fun item => lower_ascii (name item)) fire_files)
     = [lit "Fire Simple"; lit "Fire"]
  /\ leb (lower_ascii (lit "Fire Simple")) (lower_ascii (lit "Fire")) = false.
Proof. repeat split; vm_compute; reflexivity. Qed.


(** ** The order of insertion *)

Lemma files_at_cons (k : str) (r : list str) (t : tree) :
  files_at (k :: r) t
  = match dict_get k (children_or_empty t) with
    | Some s => files_at r s
    | None => None
    end.
Proof.
  unfold files_at. cbn [node_at].
  now destruct (dict_get k (children_or_empty t)).
Qed.

Lemma files_at_empty (r : list str) :
  files_at r (Tree None None) = match r with [] => Some [] | _ => None end.
Proof. destruct r; reflexivity. Qed.

Lemma path_prefix_same (q fs : list str) :
  same_path q fs = true -> path_prefix q fs = true.
Proof.
  revert fs; induction q as [|a q IH]; intros [|b fs]; simpl; try easy.
  intros H. apply andb_true_iff in H as [-> H]. now apply IH.
Qed.

(** What [add_to_tree] does to the leaf records of every folder. *)
Lemma files_at_add (fs : list str) (leaf path : str) (t t' : tree)
    (q : list str) :
  add_to_tree t (fs ++ [leaf]) path = Some t' ->
  files_at q t'
  = after_add fs {| name := leaf; path := path |} q (files_at q t).
Proof.
  revert t t' q; induction fs as [|f fs IH]; intros t t' q H.
  - simpl app in H. rewrite add_to_tree_leaf in H. injection H as <-.
    destruct q as [|k r]; [reflexivity|].
    destruct t as [c fl]. reflexivity.
  - simpl app in H. rewrite add_to_tree_folder in H by apply app_leaf_not_nil.
    destruct (add_to_tree (subtree_or_empty f t) (fs ++ [leaf]) path)
      as [s'|] eqn:Hs; [|discriminate].
    injection H as <-.
    destruct q as [|k r]; [reflexivity|].
    rewrite !files_at_cons. cbn [children_or_empty children].
    unfold after_add. cbn [same_path path_prefix].
    destruct (eqb_spec k f) as [->|N]; cbn [andb].
    + rewrite dict_get_set_same, (IH _ _ r Hs). unfold after_add.
      unfold subtree_or_empty.
      destruct (dict_get f (children_or_empty t)) as [s|]; [reflexivity|].
      rewrite files_at_empty.
      destruct r as [|x r]; [reflexivity|].
      destruct (same_path (x :: r) fs); [reflexivity|].
      destruct (path_prefix (x :: r) fs); reflexivity.
    + rewrite dict_get_set_other by exact N.
      now rewrite children_with_other.
Qed.

Lemma same_items_refl (a : option (list file_item)) : same_items a a.
Proof. destruct a; simpl; auto. Qed.

Lemma same_items_trans (a b c : option (list file_item)) :
  same_items a b -> same_items b c -> same_items a c.
Proof.
  destruct a, b, c; simpl; try tauto. apply Permutation_trans.
Qed.

Lemma same_items_or_empty (a b : option (list file_item)) :
  same_items a b -> Permutation (items_or_empty a) (items_or_empty b).
Proof. destruct a, b; simpl; try tauto. auto. Qed.

Lemma same_entries_refl (t : tree) : same_entries t t.
Proof. intros q. apply same_items_refl. Qed.

Lemma same_entries_trans (t1 t2 t3 : tree) :
  same_entries t1 t2 -> same_entries t2 t3 -> same_entries t1 t3.
Proof. intros H1 H2 q. eapply same_items_trans; [apply H1 | apply H2]. Qed.

Lemma after_add_same_items (fs : list str) (item : file_item) (q : list str)
    (a b : option (list file_item)) :
  same_items a b ->
  same_items (after_add fs item q a) (after_add fs item q b).
Proof.
  intros H. unfold after_add.
  destruct (same_path q fs);
    [simpl; apply Permutation_app_tail, same_items_or_empty, H|].
  destruct (path_prefix q fs); [simpl; apply same_items_or_empty, H | exact H].
Qed.

Lemma after_add_comm (fs1 fs2 : list str) (i1 i2 : file_item) (q : list str)
    (a : option (list file_item)) :
  same_items (after_add fs2 i2 q (after_add fs1 i1 q a))
    (after_add fs1 i1 q (after_add fs2 i2 q a)).
Proof.
  unfold after_add.
  destruct (same_path q fs1), (same_path q fs2),
    (path_prefix q fs1), (path_prefix q fs2);
    cbn [items_or_empty same_items]; try apply same_items_refl;
    try reflexivity.
  all: rewrite <- !app_assoc; apply Permutation_app_head, perm_swap.
Qed.

(** Every non-empty list of segments is a list of folders and a name. *)
Lemma parts_split (parts : list str) :
  parts <> [] -> exists fs leaf, parts = fs ++ [leaf].
Proof.
  intros N. exists (removelast parts), (last parts []).
  now apply app_removelast_last.
Qed.

Lemma add_to_tree_some (t t' : tree) (parts : list str) (path : str) :
  add_to_tree t parts path = Some t' -> exists fs leaf, parts = fs ++ [leaf].
Proof.
  intros H. apply parts_split. intros ->. discriminate H.
Qed.

(** Adding an entry to two trees with the same entries. *)
Lemma add_to_tree_same_entries (t1 t2 t1' : tree) (parts : list str)
    (path : str) :
  same_entries t1 t2 ->
  add_to_tree t1 parts path = Some t1' ->
  exists t2', add_to_tree t2 parts path = Some t2' /\ same_entries t1' t2'.
Proof.
  intros E H. destruct (add_to_tree_some _ _ _ _ H) as (fs & leaf & ->).
  destruct (add_to_tree_total t2 fs leaf path) as [t2' H2].
  exists t2'. split; [exact H2|]. intros q.
  rewrite (files_at_add _ _ _ _ _ q H), (files_at_add _ _ _ _ _ q H2).
  apply after_add_same_items, E.
Qed.

(** Adding two entries in one order or in the other. *)
Lemma add_to_tree_comm (t u v : tree) (p1 p2 : list str) (x1 x2 : str) :
  add_to_tree t p1 x1 = Some u ->
  add_to_tree u p2 x2 = Some v ->
  exists u' v',
    add_to_tree t p2 x2 = Some u'
    /\ add_to_tree u' p1 x1 = Some v'
    /\ same_entries v v'.
Proof.
  intros H1 H2.
  destruct (add_to_tree_some _ _ _ _ H1) as (fs1 & l1 & ->).
  destruct (add_to_tree_some _ _ _ _ H2) as (fs2 & l2 & ->).
  destruct (add_to_tree_total t fs2 l2 x2) as [u' H2'].
  destruct (add_to_tree_total u' fs1 l1 x1) as [v' H1'].
  exists u', v'. split; [exact H2'|]. split; [exact H1'|]. intros q.
  rewrite (files_at_add _ _ _ _ _ q H2), (files_at_add _ _ _ _ _ q H1),
    (files_at_add _ _ _ _ _ q H1'), (files_at_add _ _ _ _ _ q H2').
  apply after_add_comm.
Qed.

Lemma add_all_same_entries (l : list (list str * str)) (t t' t1 : tree) :
  same_entries t t' ->
  add_all t l = Some t1 ->
  exists t2, add_all t' l = Some t2 /\ same_entries t1 t2.
Proof.
  revert t t'; induction l as [|[p x] l IH]; intros t t' E H.
  - injection H as <-. exists t'. auto.
  - cbn [add_all fst snd] in *.
    destruct (add_to_tree t p x) as [u|] eqn:Hu; [|discriminate].
    destruct (add_to_tree_same_entries _ _ _ _ _ E Hu) as (u' & -> & E').
    eapply IH; eassumption.
Qed.

(** Adding the same entries in another order gives a tree with the same
    entries. *)
Lemma add_all_permutation (l1 l2 : list (list str * str)) :
  Permutation l1 l2 ->
  forall t t' t1,
    same_entries t t' ->
    add_all t l1 = Some t1 ->
    exists t2, add_all t' l2 = Some t2 /\ same_entries t1 t2.
Proof.
  induction 1 as [|[p x] l1 l2 P IH|[p1 x1] [p2 x2] l|l1 l2 l3 P1 IH1 P2 IH2];
    intros t t' t1 E H.
  - injection H as <-. exists t'. auto.
  - cbn [add_all fst snd] in *.
    destruct (add_to_tree t p x) as [u|] eqn:Hu; [|discriminate].
    destruct (add_to_tree_same_entries _ _ _ _ _ E Hu) as (u' & -> & E').
    eapply IH; eassumption.
  - cbn [add_all fst snd] in *.
    destruct (add_to_tree t p2 x2) as [u|] eqn:Hu; [|discriminate].
    destruct (add_to_tree u p1 x1) as [v|] eqn:Hv; [|discriminate].
    destruct (add_to_tree_comm _ _ _ _ _ _ _ Hu Hv) as (a & b & Ha & Hb & Eab).
    destruct (add_to_tree_same_entries _ _ _ _ _ E Ha) as (a' & -> & Ea).
    destruct (add_to_tree_same_entries _ _ _ _ _ Ea Hb) as (b' & -> & Eb).
    eapply add_all_same_entries; [|exact H].
    eapply same_entries_trans; eassumption.
  - destruct (IH1 _ _ _ E H) as (t2 & H2 & E2).
    destruct (IH2 _ _ _ (same_entries_refl t') H2) as (t3 & H3 & E3).
    exists t3. split; [exact H3|]. eapply same_entries_trans; eassumption.
Qed.

(** *** The dictionaries of a tree built by [add_to_tree] *)

Lemma unique_folders_empty : unique_folders (Tree None None).
Proof. constructor; constructor. Qed.

Lemma unique_folders_subtree (folder : str) (t : tree) :
  unique_folders t -> unique_folders (subtree_or_empty folder t).
Proof.
  intros [c f N F]. unfold subtree_or_empty.
  destruct (dict_get folder (children_or_empty (Tree c f))) as [s|] eqn:E;
    [|apply unique_folders_empty].
  apply dict_get_In in E. rewrite Forall_forall in F. apply (F _ E).
Qed.

Lemma children_with_unique (folder : str) (t : tree) :
  unique_folders t ->
  NoDup (map fst (children_with folder t))
  /\ Forall (fun item => unique_folders (snd item)) (children_with folder t).
Proof.
  intros [c f N F]. unfold children_with.
  destruct (dict_in folder (children_or_empty (Tree c f))); [auto|].
  split; [now apply dict_set_NoDup|].
  rewrite Forall_forall in *. intros item I.
  apply dict_set_In in I as [->|I]; [apply unique_folders_empty | auto].
Qed.

Lemma add_to_tree_unique (t t' : tree) (parts : list str) (path : str) :
  unique_folders t ->
  add_to_tree t parts path = Some t' ->
  unique_folders t'.
Proof.
  intros U H. destruct (add_to_tree_some _ _ _ _ H) as (fs & leaf & ->).
  revert t t' U H; induction fs as [|f fs IH]; intros t t' U H.
  - simpl app in H. rewrite add_to_tree_leaf in H. injection H as <-.
    destruct U as [c fl N F]. constructor; assumption.
  - simpl app in H. rewrite add_to_tree_folder in H by apply app_leaf_not_nil.
    destruct (add_to_tree (subtree_or_empty f t) (fs ++ [leaf]) path)
      as [s'|] eqn:Hs; [|discriminate].
    injection H as <-.
    destruct (children_with_unique f _ U) as [N F].
    constructor; cbn [children_or_empty children].
    + now apply dict_set_NoDup.
    + rewrite Forall_forall in *. intros item I.
      apply dict_set_In in I as [->|I]; [|auto].
      eapply IH; [|exact Hs]. now apply unique_folders_subtree.
Qed.

Lemma add_all_unique (l : list (list str * str)) (t t' : tree) :
  unique_folders t -> add_all t l = Some t' -> unique_folders t'.
Proof.
  revert t; induction l as [|[p x] l IH]; intros t U H.
  - now injection H as <-.
  - cbn [add_all fst snd] in H.
    destruct (add_to_tree t p x) as [u|] eqn:Hu; [|discriminate].
    eapply IH; [|exact H]. eapply add_to_tree_unique; eassumption.
Qed.

(** *** Rendering trees with the same entries *)

Lemma all_different_NoDup (l : list str) :
  all_different l = true -> NoDup l.
Proof.
  induction l as [|x l IH]; [constructor|].
  cbn [all_different]. intros H. apply andb_true_iff in H as [H1 H2].
  constructor; [|now apply IH].
  intros I. apply negb_true_iff in H1.
  assert (E : existsb (eqb x) l = true)
    by (apply existsb_exists; exists x; split; [exact I | apply eqb_refl]).
  congruence.
Qed.

Lemma distinct_keys_eq (lower : str -> str) (t : tree) :
  distinct_keys lower t
  = all_different (map (fun item => lower (fst item)) (children_or_empty t))
    && all_different (map (fun item => lower (name item)) (files_or_empty t))
    && forallb (fun item => distinct_keys lower (snd item))
         (children_or_empty t).
Proof. destruct t as [[c|] f]; reflexivity. Qed.

Lemma same_entries_child (k : str) (t1 t2 : tree) :
  same_entries t1 t2 ->
  match dict_get k (children_or_empty t1),
        dict_get k (children_or_empty t2) with
  | Some s1, Some s2 => same_entries s1 s2
  | None, None => True
  | _, _ => False
  end.
Proof.
  intros E. pose proof (E [k]) as E1. rewrite !files_at_cons in E1.
  destruct (dict_get k (children_or_empty t1)) as [s1|] eqn:G1,
    (dict_get k (children_or_empty t2)) as [s2|] eqn:G2;
    try exact E1.
  intros q. specialize (E (k :: q)). rewrite !files_at_cons, G1, G2 in E.
  exact E.
Qed.

(** Trees with the same entries, in which no two names of a folder have
    the same key, are rendered the same. *)
Lemma render_tree_same_entries (lower : str -> str) (t1 : tree) :
  forall t2 prefix open_root,
    same_entries t1 t2 ->
    unique_folders t1 -> unique_folders t2 ->
    distinct_keys lower t1 = true ->
    render_tree lower t1 prefix open_root
    = render_tree lower t2 prefix open_root.
Proof.
  induction t1 as [c1 f1 IH] using tree_nested_ind.
  intros t2 prefix open_root E U1 U2 D.
  rewrite distinct_keys_eq in D.
  apply andb_true_iff in D as [D D3]. apply andb_true_iff in D as [D1 D2].
  apply all_different_NoDup in D1, D2.
  rewrite !render_tree_eq. cbv zeta.
  set (c := children_or_empty (Tree c1 f1)) in *.
  inversion U1 as [c1' f1' N1 F1 Eq1]. subst c1' f1'. fold c in N1, F1.
  destruct U2 as [c2 f2 N2 F2].
  set (d := children_or_empty (Tree c2 f2)) in *.
  set (render := fun (t : tree) (k : str) =>
                   render_tree lower t (prefix ++ k ++ lit "/") false).
  (* the files *)
  assert (Ef : sorted (fun item => lower (name item))
                 (files_or_empty (Tree c1 f1))
               = sorted (fun item => lower (name item))
                   (files_or_empty (Tree c2 f2))).
  { apply sorted_permutation; [exact D2|]. exact (E []). }
  (* the subfolders, with the renderings of their subtrees *)
  assert (Ec : map (fun item => (fst item, render (snd item) (fst item)))
                 (sorted (fun item => lower (fst item)) c)
               = map (fun item => (fst item, render (snd item) (fst item)))
                   (sorted (fun item => lower (fst item)) d)).
  { rewrite <- !(sorted_map _ _ (fun item : str * str => lower (fst item))
                   (fun item : str * tree =>
                      (fst item, render (snd item) (fst item)))).
    apply sorted_permutation; [now rewrite map_map|].
    apply dict_permutation.
    - now rewrite map_map.
    - now rewrite map_map.
    - intros k.
      rewrite !(dict_get_map _ _ (fun k s => render s k)).
      pose proof (same_entries_child k _ _ E) as Ek. fold c d in Ek.
      destruct (dict_get k c) as [s1|] eqn:G1,
        (dict_get k d) as [s2|] eqn:G2; try contradiction; [|reflexivity].
      cbn [option_map]. f_equal. unfold render.
      apply dict_get_In in G1, G2.
      rewrite Forall_forall in IH, F1, F2.
      rewrite forallb_forall in D3.
      apply (IH _ G1);
        [exact Ek | apply (F1 _ G1) | apply (F2 _ G2) | apply (D3 _ G1)]. }
  rewrite Ef. f_equal. f_equal. f_equal.
  rewrite !flat_map_concat_map. f_equal.
  apply (f_equal (map (folder_parts open_root))) in Ec.
  rewrite !map_map in Ec. exact Ec.
Qed.

(** C5, as the program has it.  The entries of a list, added in two
    orders to the empty tree, give the same rendering when, in every
    folder of the tree, no two subfolders and no two files have names
    that are equal once lowercased.  (The sort is stable: names with the
    same lowercased form keep the order of their insertion.) *)
Theorem render_tree_insertion_order (lower : str -> str)
    (entries1 entries2 : list (list str * str)) (t1 : tree) :
  Permutation entries1 entries2 ->
  add_all (Tree None None) entries1 = Some t1 ->
  distinct_keys lower t1 = true ->
  exists t2,
    add_all (Tree None None) entries2 = Some t2
    /\ forall prefix open_root,
         render_tree lower t1 prefix open_root
         = render_tree lower t2 prefix open_root.
Proof.
  intros P H D.
  destruct (add_all_permutation _ _ P _ _ _ (same_entries_refl _) H) as (t2 & H2 & E).
  exists t2. split; [exact H2|]. intros prefix open_root.
  apply render_tree_same_entries; auto.
  - eapply add_all_unique; [apply unique_folders_empty | exact H].
  - eapply add_all_unique; [apply unique_folders_empty | exact H2].
Qed.

Lemma render_tree_insertion_order_witness :
  exists t2,
    add_all (Tree None None) (rev sample_entries) = Some t2
    /\ forall prefix open_root,
         render_tree lower_ascii sample_tree prefix open_root
         = render_tree lower_ascii t2 prefix open_root.
Proof.
  apply (render_tree_insertion_order lower_ascii sample_entries
           (rev sample_entries)).
  - apply Permutation_rev.
  - vm_compute. reflexivity.
  - vm_compute. reflexivity.
Defined.

(** C5 as stated fails: two files whose names differ by the case of a
    letter are listed in the order of their insertion. *)
Lemma render_tree_depends_on_order :
  option_map (fun t => render_tree lower_ascii t [] false)
    (add_all (Tree None None) case_entries)
  = Some (tpl "<ul>
<li><a href='models/Ants.html' target='_blank' rel='noopener'><img class='icon file-icon' src='assets/model.png' alt='' />Ants</a></li>
<li><a href='models/ants.html' target='_blank' rel='noopener'><img class='icon file-icon' src='assets/model.png' alt='' />ants</a></li>
</ul>")
  /\ option_map (fun t => render_tree lower_ascii t [] false)
       (add_all (Tree None None) (rev case_entries))
     = Some (tpl "<ul>
<li><a href='models/ants.html' target='_blank' rel='noopener'><img class='icon file-icon' src='assets/model.png' alt='' />ants</a></li>
<li><a href='models/Ants.html' target='_blank' rel='noopener'><img class='icon file-icon' src='assets/model.png' alt='' />Ants</a></li>
</ul>")
  /\ Permutation case_entries (rev case_entries).
Proof.
  split; [vm_compute; reflexivity|].
  split; [vm_compute; reflexivity|]. apply Permutation_rev.
Qed.


(** ** What [extract_info] returns *)

(** A text that starts with no white space is left as it is. *)
Lemma lstrip_fixed (r : str) :
  match r with c :: _ => isspace c = false | [] => True end ->
  lstrip r = r.
Proof.
  destruct r as [|c r]; [reflexivity|].
  intros H. cbn [lstrip]. now rewrite H.
Qed.

(** [strip] has nothing more to remove from its own result. *)
Lemma strip_strip (s : str) : strip (strip s) = strip s.
Proof.
  destruct (strip_trimmed s) as (l & t & _ & _ & _ & Hfirst & Hlast).
  unfold strip at 1. rewrite (lstrip_fixed _ Hfirst).
  unfold rstrip. rewrite (lstrip_fixed _ Hlast). apply rev_involutive.
Qed.

(** The lazy group stops at the first place where the closing literal
    matches: the literal matches nowhere from inside the group. *)
Lemma lazy_group_minimal (close s g : str) :
  lazy_group close s = Some g ->
  forall u v, g = u ++ v -> v <> [] ->
    match_literal close (skipn (List.length u) s) = false.
Proof.
  revert g; induction s as [|c s IH]; intros g; rewrite lazy_group_eq.
  - destruct (match_literal close []) eqn:M; [|discriminate].
    intros [= <-] u v E Hv. symmetry in E.
    apply app_eq_nil in E as [_ ->]. now contradiction Hv.
  - destruct (match_literal close (c :: s)) eqn:M.
    + intros [= <-] u v E Hv. symmetry in E.
      apply app_eq_nil in E as [_ ->]. now contradiction Hv.
    + destruct (lazy_group close s) as [g'|] eqn:G; [|discriminate].
      intros [= <-] [|d u] v E Hv.
      * exact M.
      * injection E as _ E. cbn [List.length skipn].
        exact (IH g' eq_refl u v E Hv).
Qed.

(** What the search returns is a lazy group of some part of the text. *)
Lemma INFO_RE_search_group (text g : str) :
  INFO_RE_search text = Some g ->
  exists s, lazy_group INFO_CLOSE s = Some g.
Proof.
  induction text as [|c text IH]; rewrite INFO_RE_search_eq.
  - destruct (INFO_RE_match []) eqn:E; [|discriminate].
    unfold INFO_RE_match in E. discriminate E.
  - destruct (INFO_RE_match (c :: text)) as [g'|] eqn:E.
    + intros [= <-]. unfold INFO_RE_match in E.
      destruct (match_literal INFO_OPEN (c :: text)); [|discriminate].
      eexists. exact E.
    + exact IH.
Qed.

Lemma match_literal_nil (p : str) : p <> [] -> match_literal p [] = false.
Proof. destruct p; [congruence | reflexivity]. Qed.

(** A part of a group without closing literal has none either. *)
Lemma lazy_group_part (close s g l r t : str) :
  close <> [] ->
  lazy_group close s = Some g ->
  g = l ++ r ++ t ->
  forall u v, r = u ++ v -> match_literal close v = false.
Proof.
  intros Hc G Eg u v Er.
  destruct (match_literal close v) eqn:M; [exfalso|reflexivity].
  assert (Hv : v <> []).
  { intros ->. rewrite (match_literal_nil _ Hc) in M. discriminate. }
  destruct (lazy_group_some _ _ _ G) as (rest & Es & _).
  assert (Hv' : v ++ t <> []) by (destruct v; [congruence | discriminate]).
  pose proof (lazy_group_minimal _ _ _ G (l ++ u) (v ++ t)) as Min.
  rewrite Es, Eg, Er in Min.
  rewrite <- !app_assoc in Min. specialize (Min eq_refl Hv').
  rewrite (app_assoc l u), skipn_app, skipn_all, Nat.sub_diag in Min.
  cbn [app skipn] in Min.
  rewrite (match_literal_app _ _ (t ++ rest) M) in Min. discriminate.
Qed.

(** X1.  Whatever the file holds, the documentation that [extract_info]
    returns neither starts nor ends with white space: [strip] would
    leave it as it is. *)
Theorem extract_info_trimmed (bs : list byte) :
  exists info,
    extract_info bs = Some info
    /\ strip info = info
    /\ match info with c :: _ => isspace c = false | [] => True end
    /\ match rev info with c :: _ => isspace c = false | [] => True end.
Proof.
  destruct (extract_info_total bs) as [info E]. exists info.
  split; [exact E|].
  unfold extract_info in E.
  destruct (read_text Ignore bs) as [text|]; [|discriminate].
  destruct (INFO_RE_search text) as [g|]; injection E as <-.
  - destruct (strip_trimmed g) as (l & t & _ & _ & _ & Hfirst & Hlast).
    split; [apply strip_strip | split; assumption].
  - repeat split.
Qed.

(** X2.  The documentation that [extract_info] returns holds no closing
    delimiter, in any letter case: the block ends at the first one. *)
Theorem extract_info_no_closing_delimiter (bs : list byte) :
  exists info,
    extract_info bs = Some info
    /\ forall before rest,
         info = before ++ rest -> match_literal INFO_CLOSE rest = false.
Proof.
  destruct (extract_info_total bs) as [info E]. exists info.
  split; [exact E|].
  unfold extract_info in E.
  destruct (read_text Ignore bs) as [text|]; [|discriminate].
  destruct (INFO_RE_search text) as [g|] eqn:S; injection E as <-.
  - destruct (INFO_RE_search_group _ _ S) as [s G].
    destruct (strip_trimmed g) as (l & t & Eg & _).
    intros before rest Er.
    eapply (lazy_group_part INFO_CLOSE s g l (strip g) t);
      [discriminate | exact G | exact Eg | exact Er].
  - intros before rest Er. symmetry in Er.
    apply app_eq_nil in Er as [_ ->]. reflexivity.
Qed.


(** ** Finding a text in a page *)

Lemma contains_here (p s : str) : startswith p s = true -> contains p s = true.
Proof. intros H. rewrite contains_eq, H. reflexivity. Qed.

Lemma startswith_refl (p s : str) : startswith p (p ++ s) = true.
Proof.
  induction p as [|c p IH]; [reflexivity|].
  cbn [app startswith]. now rewrite N.eqb_refl.
Qed.

Lemma startswith_same_prefix (a q r : str) :
  startswith (a ++ q) (a ++ r) = startswith q r.
Proof.
  induction a as [|c a IH]; [reflexivity|].
  cbn [app startswith]. now rewrite N.eqb_refl.
Qed.

Lemma contains_middle (p a b : str) : contains p (a ++ p ++ b) = true.
Proof. apply contains_app_r, contains_here, startswith_refl. Qed.

(** A text [x ++ q] is found where a chunk that ends with [x] is
    followed by a text that starts with [q]. *)
Lemma contains_end (x q c rest : str) :
  skipn (List.length c - List.length x) c = x ->
  startswith q rest = true ->
  contains (x ++ q) (c ++ rest) = true.
Proof.
  intros E H.
  rewrite <- (firstn_skipn (List.length c - List.length x) c), E.
  rewrite <- app_assoc. apply contains_app_r, contains_here.
  now rewrite startswith_same_prefix.
Qed.

(** A part of a joined list is found in the result. *)
Lemma contains_join (p sep : str) (parts : list str) :
  In p parts -> contains p (join sep parts) = true.
Proof.
  induction parts as [|x parts IH]; [intros []|].
  intros [->|H].
  - destruct parts as [|y parts].
    + cbn [join]. rewrite <- (app_nil_r p) at 2.
      apply contains_here, startswith_refl.
    + cbn [join]. apply contains_here, startswith_refl.
  - destruct parts as [|y parts]; [destruct H|].
    change (join sep (x :: y :: parts))
      with (x ++ sep ++ join sep (y :: parts)).
    apply contains_app_r, contains_app_r, IH, H.
Qed.

(** A text found in a part of a joined list is found in the result. *)
Lemma contains_join_part (p sep part : str) (parts : list str) :
  In part parts -> contains p part = true ->
  contains p (join sep parts) = true.
Proof.
  induction parts as [|x parts IH]; [intros []|].
  intros [->|H] C.
  - destruct parts as [|y parts]; [exact C|].
    change (join sep (part :: y :: parts))
      with (part ++ sep ++ join sep (y :: parts)).
    apply contains_app_l, C.
  - destruct parts as [|y parts]; [destruct H|].
    change (join sep (x :: y :: parts))
      with (x ++ sep ++ join sep (y :: parts)).
    apply contains_app_r, contains_app_r, IH; assumption.
Qed.

(** ** [str.replace] *)

Lemma replace_from_short (old new s : str) (k : nat) :
  List.length s <= k -> replace_from old new k s = [].
Proof.
  revert k; induction s as [|c s IH]; intros k H; [reflexivity|].
  cbn [List.length] in H. destruct k as [|k]; [lia|].
  cbn [replace_from]. apply IH. lia.
Qed.

(** A text that ends with [old], and in which [old] starts nowhere
    before, loses this one occurrence. *)
Lemma replace_last (old new s : str) :
  old <> [] ->
  (forall u v, s = u ++ v -> v <> [] -> startswith old (v ++ old) = false) ->
  replace old new (s ++ old) = s ++ new.
Proof.
  intros Ho. unfold replace. induction s as [|c s IH]; intros H.
  - cbn [app]. destruct old as [|o old]; [congruence|].
    cbn [replace_from].
    pose proof (startswith_refl (o :: old) []) as R.
    rewrite app_nil_r in R. rewrite R.
    rewrite replace_from_short by (cbn [List.length]; lia).
    apply app_nil_r.
  - cbn [app replace_from].
    pose proof (H [] (c :: s) eq_refl ltac:(discriminate)) as F.
    cbn [app] in F. rewrite F. f_equal.
    apply IH. intros u v E Hv. apply (H (c :: u) v); [|exact Hv].
    now rewrite E.
Qed.

(** No occurrence of [old] starts in a text [s] followed by [old], when
    [s] holds none and [old] cannot overlap with itself. *)
Lemma no_start_before (old s : str) :
  contains old s = false ->
  no_entry old old = true ->
  forall u v, s = u ++ v -> v <> [] -> startswith old (v ++ old) = false.
Proof.
  intros C Ne u v E Hv.
  destruct (startswith old (v ++ old)) eqn:S; [exfalso|reflexivity].
  apply startswith_app_entry in S as [S|[L S]].
  - rewrite E in C. rewrite (contains_app_r _ u _ (contains_here _ _ S)) in C.
    discriminate.
  - unfold no_entry in Ne. rewrite forallb_forall in Ne.
    assert (I : In (List.length v) (seq 1 (List.length old - 1))).
    { apply in_seq. destruct v; [congruence|]. cbn [List.length] in *. lia. }
    apply Ne in I. rewrite S in I. discriminate.
Qed.

(** ** [pathlib]: the suffix of a model file *)

Lemma rfind_app (c : N) (a b : str) :
  rfind c (a ++ b)
  = match rfind c b with
    | Some i => Some (List.length a + i)
    | None => rfind c a
    end.
Proof.
  induction a as [|d a IH]; cbn [app rfind List.length].
  - destruct (rfind c b); reflexivity.
  - rewrite IH. destruct (rfind c b); [reflexivity|].
    destruct (rfind c a); reflexivity.
Qed.

(** A name [base ++ ext], where [base] is not empty and [ext] is a dot
    followed by one or more characters other than the dot, has the
    suffix [ext] and the stem [base]. *)
Lemma suffix_index_ext (base ext : str) :
  base <> [] ->
  rfind (chr ".") ext = Some 0 ->
  1 < List.length ext ->
  Pathlib.suffix_index (base ++ ext) = Some (List.length base).
Proof.
  intros Hb R L. unfold Pathlib.suffix_index.
  rewrite rfind_app, R, Nat.add_0_r, length_app.
  destruct base as [|c base]; [congruence|]. cbn [List.length].
  replace (0 <? S (List.length base)) with true
    by (symmetry; apply Nat.ltb_lt; lia).
  replace (S (List.length base) <? S (List.length base) + List.length ext - 1)
    with true by (symmetry; apply Nat.ltb_lt; lia).
  reflexivity.
Qed.

Lemma stem_ext (parent : list str) (base ext : str) :
  base <> [] ->
  rfind (chr ".") ext = Some 0 ->
  1 < List.length ext ->
  Pathlib.stem {| Pathlib.parent_parts := parent; Pathlib.name := base ++ ext |}
  = base.
Proof.
  intros Hb R L. unfold Pathlib.stem. cbn [Pathlib.name].
  rewrite (suffix_index_ext _ _ Hb R L).
  rewrite firstn_app, firstn_all, Nat.sub_diag. cbn [firstn].
  apply app_nil_r.
Qed.

(** ** [netlogoweb_url] *)

(** The path of the model in the URL: each space of the path is written
    [%20], and every other character is kept. *)
Lemma netlogoweb_url_eq (model_rel : Pathlib.PurePath) :
  netlogoweb_url model_rel
  = lit "https://netlogoweb.org/launch#https://netlogoweb.org/assets/modelslib/"
    ++ flat_map (fun c => if (c =? chr " ")%N then lit "%20" else [c])
         (Pathlib.as_posix model_rel).
Proof.
  unfold netlogoweb_url. cbv zeta.
  change (lit " ") with [chr " "]. rewrite replace_char.
  rewrite app_assoc. reflexivity.
Qed.

Lemma encoded_no_space (s : str) :
  Forall (fun c => c <> chr " ")
    (flat_map (fun c => if (c =? chr " ")%N then lit "%20" else [c]) s).
Proof.
  induction s as [|c s IH]; [constructor|].
  cbn [flat_map]. apply Forall_app. split; [|exact IH].
  destruct (N.eqb_spec c (chr " ")) as [->|Hc].
  - repeat constructor; discriminate.
  - repeat constructor. exact Hc.
Qed.

(** An encoded path starts with [%20] only where the path has a space or
    has the text [%20] itself. *)
Lemma startswith_encoded (s : str) :
  startswith (lit "%20")
    (flat_map (fun c => if (c =? chr " ")%N then lit "%20" else [c]) s) = true ->
  (exists s', s = chr " " :: s') \/ startswith (lit "%20") s = true.
Proof.
  change (lit "%20") with [37; 50; 48]%N. change (chr " ") with 32%N.
  destruct s as [|c [|d [|e s]]]; cbn [flat_map app];
    repeat match goal with
      | |- context [(?x =? 32)%N] =>
          destruct (N.eqb_spec x 32) as [->|?]
      end;
    cbn [app startswith]; eauto;
    rewrite ?andb_true_r, ?andb_false_r; try discriminate;
    try (intros H; right; exact H).
  all: try (repeat match goal with
              | |- context [(?a =? ?b)%N] =>
                  destruct (N.eqb_spec a b) as [->|?]
            end; cbn; try discriminate; eauto; fail).
Qed.

(** Reading [%20] as a space gives the path back, unless the path holds
    the text [%20] itself. *)
Lemma replace_encoded (s : str) :
  contains (lit "%20") s = false ->
  replace (lit "%20") (lit " ")
    (flat_map (fun c => if (c =? chr " ")%N then lit "%20" else [c]) s)
  = s.
Proof.
  unfold replace. induction s as [|c s IH]; [reflexivity|].
  intros C. rewrite contains_eq in C. apply orb_false_iff in C as [C1 C2].
  specialize (IH C2).
  destruct (N.eqb_spec c (chr " ")) as [->|Hc].
  - cbn [flat_map]. rewrite N.eqb_refl.
    change (lit "%20") with [37; 50; 48]%N in *.
    change (lit " ") with [32]%N. change (chr " ") with 32%N in *.
    cbn [app replace_from startswith List.length Nat.sub].
    rewrite !N.eqb_refl. cbn [andb app]. f_equal. exact IH.
  - cbn [flat_map].
    destruct (c =? chr " ")%N eqn:E; [apply N.eqb_eq in E; congruence|].
    cbn [app replace_from].
    destruct (startswith (lit "%20")
                (c :: flat_map
                        (fun c0 => if (c0 =? chr " ")%N then lit "%20" else [c0])
                        s)) eqn:S.
    + exfalso.
      pose proof (startswith_encoded (c :: s)) as P.
      cbn [flat_map] in P. rewrite E in P. cbn [app] in P.
      destruct (P S) as [[s' Es]|S']; [congruence|].
      rewrite S' in C1. discriminate.
    + f_equal. exact IH.
Qed.

(** X3.  The URL that runs a model holds no space, whatever the path of
    the model. *)
Theorem netlogoweb_url_no_space (model_rel : Pathlib.PurePath) :
  Forall (fun c => c <> chr " ") (netlogoweb_url model_rel).
Proof.
  rewrite netlogoweb_url_eq. apply Forall_app. split.
  - apply Forall_forall. intros c H.
    assert (F : forallb (fun c => negb (c =? chr " ")%N)
                  (lit "https://netlogoweb.org/launch#https://netlogoweb.org/assets/modelslib/")
                = true) by (vm_compute; reflexivity).
    rewrite forallb_forall in F. specialize (F c H).
    apply negb_true_iff, N.eqb_neq in F. exact F.
  - apply encoded_no_space.
Qed.

(** X4.  When the path of a model does not hold the text [%20], the URL
    is the fixed address followed by an encoded path from which the path
    is read back by taking each [%20] for a space; two such models with
    the same URL have the same path. *)
Theorem netlogoweb_url_round_trip (model_rel : Pathlib.PurePath) :
  contains (lit "%20") (Pathlib.as_posix model_rel) = false ->
  (exists encoded,
     netlogoweb_url model_rel
     = lit "https://netlogoweb.org/launch#https://netlogoweb.org/assets/modelslib/"
       ++ encoded
     /\ replace (lit "%20") (lit " ") encoded = Pathlib.as_posix model_rel)
  /\ forall other,
       contains (lit "%20") (Pathlib.as_posix other) = false ->
       netlogoweb_url other = netlogoweb_url model_rel ->
       Pathlib.as_posix other = Pathlib.as_posix model_rel.
Proof.
  intros C. split.
  - eexists. split; [apply netlogoweb_url_eq | apply replace_encoded, C].
  - intros other C' E. rewrite !netlogoweb_url_eq in E.
    apply app_inv_head in E.
    rewrite <- (replace_encoded _ C), <- (replace_encoded _ C').
    now rewrite E.
Qed.

Lemma netlogoweb_url_round_trip_witness :
  contains (lit "%20") (Pathlib.as_posix wolf_sheep) = false
  /\ (exists encoded,
        netlogoweb_url wolf_sheep
        = lit "https://netlogoweb.org/launch#https://netlogoweb.org/assets/modelslib/"
          ++ encoded
        /\ replace (lit "%20") (lit " ") encoded = Pathlib.as_posix wolf_sheep)
  /\ forall other,
       contains (lit "%20") (Pathlib.as_posix other) = false ->
       netlogoweb_url other = netlogoweb_url wolf_sheep ->
       Pathlib.as_posix other = Pathlib.as_posix wolf_sheep.
Proof.
  split; [reflexivity|].
  apply (netlogoweb_url_round_trip wolf_sheep). reflexivity.
Defined.


(** ** The page of a model and its links *)

Lemma times_swap (s : str) (n : nat) : times s n ++ s = s ++ times s n.
Proof.
  induction n as [|n IH]; cbn [times app]; [now rewrite app_nil_r|].
  now rewrite <- app_assoc, IH.
Qed.

(** The slashes of a joined path are those that [join] puts between the
    parts. *)
Lemma count_slash_join (l : list str) :
  Forall (fun part => ~ In (chr "/") part) l ->
  count_occ N.eq_dec (join (lit "/") l) (chr "/") = List.length l - 1.
Proof.
  induction 1 as [|p l Hp Hl IH]; [reflexivity|].
  apply (count_occ_not_In N.eq_dec) in Hp.
  destruct l as [|q l]; [exact Hp|].
  change (join (lit "/") (p :: q :: l))
    with (p ++ lit "/" ++ join (lit "/") (q :: l)).
  rewrite !count_occ_app, Hp, IH. cbn [List.length]. vm_compute (count_occ _ (lit "/") _).
  lia.
Qed.

Lemma stem_incl (p : Pathlib.PurePath) (c : N) :
  In c (Pathlib.stem p) -> In c (Pathlib.name p).
Proof.
  unfold Pathlib.stem. destruct (Pathlib.suffix_index (Pathlib.name p)) as [i|].
  - intros H. rewrite <- (firstn_skipn i (Pathlib.name p)).
    apply in_or_app. now left.
  - auto.
Qed.

(** The parts of a path keep no slash when the suffix of the name is
    changed for one without slash. *)
Lemma with_suffix_slash_free (p : Pathlib.PurePath) (sfx : str) :
  Forall (fun part => ~ In (chr "/") part) (Pathlib.parts p) ->
  ~ In (chr "/") sfx ->
  Forall (fun part => ~ In (chr "/") part)
    (Pathlib.parts (Pathlib.with_suffix p sfx)).
Proof.
  unfold Pathlib.parts, Pathlib.with_suffix. cbn [Pathlib.parent_parts Pathlib.name].
  intros H Hs. apply Forall_app in H as [Hp Hn]. apply Forall_app. split; [exact Hp|].
  constructor; [|constructor].
  apply Forall_inv in Hn. intros I. apply in_app_or in I as [I|I]; [|auto].
  apply Hn, stem_incl, I.
Qed.

(** The page of a model is written one folder below the site directory
    for each part of the path of the model. *)
Lemma output_path_depth (p : Pathlib.PurePath) :
  Forall (fun part => ~ In (chr "/") part) (Pathlib.parts p) ->
  count_occ N.eq_dec
    (lit "models/" ++ Pathlib.as_posix (Pathlib.with_suffix p (lit ".html")))
    (chr "/")
  = List.length (Pathlib.parts p).
Proof.
  intros H. rewrite count_occ_app. unfold Pathlib.as_posix.
  rewrite count_slash_join
    by (apply with_suffix_slash_free; [exact H | vm_compute; intuition discriminate]).
  unfold Pathlib.parts, Pathlib.with_suffix.
  cbn [Pathlib.parent_parts Pathlib.name].
  rewrite !length_app. cbn [List.length].
  vm_compute (count_occ _ (lit "models/") _). lia.
Qed.

(** X5.  The page of a model is written as many folders below the site
    directory as its output path has slashes.  Its links to the
    stylesheet and to the index climb that many folders, to the site
    directory; the link to its screenshot, when there is one, climbs one
    folder more and goes down into the models directory. *)
Theorem model_page_links_climb
    (markdown : str -> str) (exists_in_models : Pathlib.PurePath -> bool)
    (model_rel : Pathlib.PurePath) (bs : list byte) :
  Forall (fun part => ~ In (chr "/") part) (Pathlib.parts model_rel) ->
  exists page entry,
    model_page markdown exists_in_models model_rel bs = Some (page, entry)
    /\ let depth := count_occ N.eq_dec (output_path page) (chr "/") in
       contains
         (tpl "<link rel='stylesheet' href='"
          ++ Html.escape (times (lit "../") depth ++ lit "styles.css")
          ++ tpl "' />")
         (content page) = true
       /\ contains
            (tpl "<a class='back-link' href='"
             ++ Html.escape (times (lit "../") depth ++ lit "index.html")
             ++ tpl "'>")
            (content page) = true
       /\ (exists_in_models (Pathlib.with_suffix model_rel (lit ".png")) = true ->
           contains
             (tpl "<img src='"
              ++ Html.escape
                   (times (lit "../") (S depth) ++ lit "models/"
                    ++ Pathlib.as_posix
                         (Pathlib.with_suffix model_rel (lit ".png")))
              ++ tpl "' ")
             (content page) = true).
Proof.
  intros H. unfold model_page.
  destruct (extract_info_total bs) as [info ->].
  eexists. eexists. split; [reflexivity|].
  cbn [output_path content]. rewrite (output_path_depth _ H).
  generalize (List.length (Pathlib.parts model_rel)). intros depth.
  generalize (markdown info). intros info_html.
  unfold render_model_page. repeat split.
  - do 2 apply contains_app_r.
    apply contains_end; [vm_compute; reflexivity|].
    rewrite startswith_same_prefix. apply startswith_app_l.
    vm_compute. reflexivity.
  - do 4 apply contains_app_r.
    apply contains_end; [vm_compute; reflexivity|].
    rewrite startswith_same_prefix. apply startswith_app_l.
    vm_compute. reflexivity.
  - intros E. unfold relative_image_path. rewrite E.
    change (lit "../models/") with (lit "../" ++ lit "models/").
    rewrite <- (app_assoc (lit "../") (lit "models/")).
    rewrite (app_assoc (times (lit "../") depth) (lit "../")).
    rewrite times_swap. change (lit "../" ++ times (lit "../") depth)
      with (times (lit "../") (S depth)).
    destruct (times (lit "../") (S depth) ++ lit "models/"
              ++ Pathlib.as_posix (Pathlib.with_suffix model_rel (lit ".png")))
      as [|c src] eqn:Es.
    { apply app_eq_nil in Es as [Es _]. discriminate Es. }
    do 13 apply contains_app_r. apply contains_app_l, contains_here.
    rewrite !startswith_same_prefix. apply startswith_refl.
Qed.

Lemma model_page_links_climb_witness :
  Forall (fun part => ~ In (chr "/") part) (Pathlib.parts wolf_sheep)
  /\ exists page entry,
       model_page markdown_plain (fun _ => true) wolf_sheep (bytes_of "<model/>")
       = Some (page, entry)
       /\ let depth := count_occ N.eq_dec (output_path page) (chr "/") in
          contains
            (tpl "<link rel='stylesheet' href='"
             ++ Html.escape (times (lit "../") depth ++ lit "styles.css")
             ++ tpl "' />")
            (content page) = true
          /\ contains
               (tpl "<a class='back-link' href='"
                ++ Html.escape (times (lit "../") depth ++ lit "index.html")
                ++ tpl "'>")
               (content page) = true
          /\ ((fun _ : Pathlib.PurePath => true)
                (Pathlib.with_suffix wolf_sheep (lit ".png")) = true ->
              contains
                (tpl "<img src='"
                 ++ Html.escape
                      (times (lit "../") (S depth) ++ lit "models/"
                       ++ Pathlib.as_posix
                            (Pathlib.with_suffix wolf_sheep (lit ".png")))
                 ++ tpl "' ")
                (content page) = true).
Proof.
  assert (H : Forall (fun part => ~ In (chr "/") part) (Pathlib.parts wolf_sheep)).
  { repeat constructor; vm_compute; intuition discriminate. }
  split; [exact H|].
  apply (model_page_links_climb markdown_plain (fun _ => true) wolf_sheep
           (bytes_of "<model/>") H).
Defined.

(** ** The name of a model, on its page and in the list *)

(** X6.  For a model file [base.nlogox] whose [base] is not empty and
    does not hold the text [.nlogox], the title of its page and the name
    that its list entry shows are both [base]. *)
Theorem title_and_shown_name
    (markdown : str -> str) (exists_in_models : Pathlib.PurePath -> bool)
    (parent : list str) (base : str) (bs : list byte) :
  base <> [] ->
  contains (lit ".nlogox") base = false ->
  exists page link,
    model_page markdown exists_in_models
      {| Pathlib.parent_parts := parent; Pathlib.name := base ++ lit ".nlogox" |}
      bs
    = Some (page, (parent ++ [base ++ lit ".nlogox"], link))
    /\ contains (lit "<title>" ++ Html.escape base ++ lit "</title>")
         (content page) = true
    /\ contains (lit "<h1>" ++ Html.escape base ++ lit "</h1>")
         (content page) = true
    /\ file_part {| name := base ++ lit ".nlogox"; path := link |}
       = tpl "<li><a href='" ++ Html.escape link
         ++ tpl "' target='_blank' rel='noopener'>"
         ++ tpl "<img class='icon file-icon' src='assets/model.png' alt='' />"
         ++ Html.escape base ++ tpl "</a></li>".
Proof.
  intros Hb C. unfold model_page.
  destruct (extract_info_total bs) as [info ->].
  eexists. eexists. split; [reflexivity|].
  cbn [content].
  rewrite (stem_ext parent base (lit ".nlogox") Hb eq_refl)
    by (vm_compute; lia).
  generalize (markdown info). intros info_html.
  unfold render_model_page. repeat split.
  - apply contains_end; [vm_compute; reflexivity|].
    rewrite startswith_same_prefix. apply startswith_app_l.
    vm_compute. reflexivity.
  - do 8 apply contains_app_r.
    apply contains_end; [vm_compute; reflexivity|].
    rewrite startswith_same_prefix. apply startswith_app_l.
    vm_compute. reflexivity.
  - unfold file_part. cbn [name path].
    rewrite (replace_last (lit ".nlogox") [] base)
      by first [ discriminate
               | apply no_start_before; [exact C | vm_compute; reflexivity] ].
    now rewrite app_nil_r.
Qed.

Lemma title_and_shown_name_witness :
  lit "Wolf Sheep" <> []
  /\ contains (lit ".nlogox") (lit "Wolf Sheep") = false
  /\ exists page link,
       model_page markdown_plain (fun _ => false)
         {| Pathlib.parent_parts := [lit "Biology"];
            Pathlib.name := lit "Wolf Sheep" ++ lit ".nlogox" |}
         (bytes_of "<model/>")
       = Some (page, ([lit "Biology"] ++ [lit "Wolf Sheep" ++ lit ".nlogox"], link))
       /\ contains (lit "<title>" ++ Html.escape (lit "Wolf Sheep") ++ lit "</title>")
            (content page) = true
       /\ contains (lit "<h1>" ++ Html.escape (lit "Wolf Sheep") ++ lit "</h1>")
            (content page) = true
       /\ file_part {| name := lit "Wolf Sheep" ++ lit ".nlogox"; path := link |}
          = tpl "<li><a href='" ++ Html.escape link
            ++ tpl "' target='_blank' rel='noopener'>"
            ++ tpl "<img class='icon file-icon' src='assets/model.png' alt='' />"
            ++ Html.escape (lit "Wolf Sheep") ++ tpl "</a></li>".
Proof.
  assert (Hb : lit "Wolf Sheep" <> []) by discriminate.
  split; [exact Hb|]. split; [reflexivity|].
  apply (title_and_shown_name markdown_plain (fun _ => false)
           [lit "Biology"] (lit "Wolf Sheep") (bytes_of "<model/>") Hb).
  reflexivity.
Defined.

(** ** One page for each model *)

(** Two texts without slash, each followed by nothing or by a slash, are
    equal when the whole texts are. *)
Lemma split_at_slash (a b x y : str) :
  ~ In (chr "/") a -> ~ In (chr "/") b ->
  match x with [] => True | c :: _ => c = chr "/" end ->
  match y with [] => True | c :: _ => c = chr "/" end ->
  a ++ x = b ++ y -> a = b /\ x = y.
Proof.
  revert b; induction a as [|c a IH]; intros [|d b] Ha Hb Hx Hy E;
    cbn [app] in E.
  - auto.
  - exfalso. subst x. apply Hb. left. exact Hx.
  - exfalso. subst y. apply Ha. left. exact Hy.
  - injection E as -> E.
    destruct (IH b) as [-> ->]; auto.
    + intros I. apply Ha. now right.
    + intros I. apply Hb. now right.
Qed.

Lemma join_slash_eq (p : str) (l : list str) :
  exists x,
    join (lit "/") (p :: l) = p ++ x
    /\ match x with [] => True | c :: _ => c = chr "/" end
    /\ match l with
       | [] => x = []
       | _ => x = lit "/" ++ join (lit "/") l
       end.
Proof.
  destruct l as [|q l].
  - exists []. cbn [join]. now rewrite app_nil_r.
  - exists (lit "/" ++ join (lit "/") (q :: l)). repeat split.
Qed.

(** Paths with the same text have the same parts. *)
Lemma join_slash_inj (l1 l2 : list str) :
  Forall (fun part => ~ In (chr "/") part) l1 ->
  Forall (fun part => ~ In (chr "/") part) l2 ->
  l1 <> [] -> l2 <> [] ->
  join (lit "/") l1 = join (lit "/") l2 -> l1 = l2.
Proof.
  intros H1; revert l2; induction H1 as [|p l1 Hp H1 IH];
    intros l2 H2 N1 N2 E; [now contradiction N1|].
  destruct H2 as [|q l2 Hq H2]; [now contradiction N2|].
  destruct (join_slash_eq p l1) as (x & Ex & Sx & Lx).
  destruct (join_slash_eq q l2) as (y & Ey & Sy & Ly).
  assert (E' : p ++ x = q ++ y) by (rewrite <- Ex, <- Ey; exact E).
  destruct (split_at_slash _ _ _ _ Hp Hq Sx Sy E') as [-> Exy].
  f_equal. destruct l1 as [|p1 l1], l2 as [|q1 l2].
  - reflexivity.
  - subst x y. discriminate.
  - subst x y. discriminate.
  - subst x y. apply app_inv_head in Exy.
    apply IH; [exact H2 | discriminate | discriminate | exact Exy].
Qed.

(** X7.  Two different model files whose names are a non-empty text
    followed by [.nlogox] have their pages written at different places:
    no page of such a model is overwritten by the page of another. *)
Theorem model_pages_distinct
    (markdown : str -> str) (exists_in_models : Pathlib.PurePath -> bool)
    (parent1 parent2 : list str) (base1 base2 : str) (bs1 bs2 : list byte) :
  Forall (fun part => ~ In (chr "/") part) (parent1 ++ [base1]) ->
  Forall (fun part => ~ In (chr "/") part) (parent2 ++ [base2]) ->
  base1 <> [] -> base2 <> [] ->
  (parent1, base1) <> (parent2, base2) ->
  exists page1 entry1 page2 entry2,
    model_page markdown exists_in_models
      {| Pathlib.parent_parts := parent1; Pathlib.name := base1 ++ lit ".nlogox" |}
      bs1 = Some (page1, entry1)
    /\ model_page markdown exists_in_models
         {| Pathlib.parent_parts := parent2; Pathlib.name := base2 ++ lit ".nlogox" |}
         bs2 = Some (page2, entry2)
    /\ output_path page1 <> output_path page2.
Proof.
  intros H1 H2 N1 N2 D. unfold model_page.
  destruct (extract_info_total bs1) as [info1 ->].
  destruct (extract_info_total bs2) as [info2 ->].
  do 4 eexists. split; [reflexivity|]. split; [reflexivity|].
  cbn [output_path]. intros E. apply D.
  apply app_inv_head in E.
  unfold Pathlib.as_posix, Pathlib.parts, Pathlib.with_suffix in E.
  cbn [Pathlib.parent_parts Pathlib.name] in E.
  rewrite (stem_ext parent1 base1 (lit ".nlogox") N1 eq_refl) in E
    by (vm_compute; lia).
  rewrite (stem_ext parent2 base2 (lit ".nlogox") N2 eq_refl) in E
    by (vm_compute; lia).
  assert (S : forall parent base,
             Forall (fun part => ~ In (chr "/") part) (parent ++ [base]) ->
             Forall (fun part => ~ In (chr "/") part)
               (parent ++ [base ++ lit ".html"])).
  { intros parent base H. apply Forall_app in H as [Hp Hb].
    apply Forall_app. split; [exact Hp|].
    constructor; [|constructor]. apply Forall_inv in Hb.
    intros I. apply in_app_or in I as [I|I]; [auto|].
    vm_compute in I. intuition discriminate. }
  apply join_slash_inj in E;
    [| apply S, H1 | apply S, H2
     | intros Z; apply app_eq_nil in Z as [_ Z]; discriminate
     | intros Z; apply app_eq_nil in Z as [_ Z]; discriminate ].
  apply app_inj_tail in E as [-> E]. apply app_inv_tail in E. now subst.
Qed.

Lemma model_pages_distinct_witness :
  exists page1 entry1 page2 entry2,
    model_page markdown_plain (fun _ => false)
      {| Pathlib.parent_parts := [lit "Biology"];
         Pathlib.name := lit "Wolf Sheep" ++ lit ".nlogox" |}
      (bytes_of "<model/>") = Some (page1, entry1)
    /\ model_page markdown_plain (fun _ => false)
         {| Pathlib.parent_parts := [];
            Pathlib.name := lit "Wolf Sheep" ++ lit ".nlogox" |}
         (bytes_of "<model/>") = Some (page2, entry2)
    /\ output_path page1 <> output_path page2.
Proof.
  apply (model_pages_distinct markdown_plain (fun _ => false)
           [lit "Biology"] [] (lit "Wolf Sheep") (lit "Wolf Sheep")
           (bytes_of "<model/>") (bytes_of "<model/>")).
  - repeat constructor; vm_compute; intuition discriminate.
  - repeat constructor; vm_compute; intuition discriminate.
  - discriminate.
  - discriminate.
  - discriminate.
Defined.


(** ** The tree: insertion *)

(** X8.  [add_to_tree] fails, on the first segment it looks for, exactly
    when it is given no segment at all. *)
Theorem add_to_tree_fails_iff_empty (t : tree) (parts : list str) (path : str) :
  add_to_tree t parts path = None <-> parts = [].
Proof.
  split.
  - intros E. destruct parts as [|p parts]; [reflexivity|].
    destruct (parts_split (p :: parts)) as (fs & leaf & Ep); [discriminate|].
    destruct (add_to_tree_total t fs leaf path) as [t' Et].
    rewrite Ep, Et in E. discriminate.
  - intros ->. apply add_to_tree_no_segment.
Qed.

Lemma list_sum_dict_set (g : tree -> nat) (k : str) (v v' : tree) (d : dict tree) :
  dict_get k d = Some v ->
  list_sum (map (fun item => g (snd item)) (dict_set k v' d)) + g v
  = list_sum (map (fun item => g (snd item)) d) + g v'.
Proof.
  induction d as [|[k0 v0] d IH]; [discriminate|].
  cbn [dict_get dict_set]. destruct (eqb k k0).
  - intros [= ->]. unfold list_sum. cbn [map fold_right snd]. lia.
  - intros E. specialize (IH E). unfold list_sum in *.
    cbn [map fold_right snd]. lia.
Qed.

Lemma list_sum_children_with (g : tree -> nat) (folder : str) (t : tree) :
  g (Tree None None) = 0 ->
  list_sum (map (fun item => g (snd item)) (children_with folder t))
  = list_sum (map (fun item => g (snd item)) (children_or_empty t)).
Proof.
  intros G. unfold children_with, dict_in.
  destruct (dict_get folder (children_or_empty t)) eqn:E; [reflexivity|].
  induction (children_or_empty t) as [|[k0 v0] d IH].
  - cbn. lia.
  - cbn [dict_get] in E. cbn [dict_set].
    destruct (eqb folder k0); [discriminate|].
    unfold list_sum in *. cbn [map fold_right snd]. now rewrite (IH E).
Qed.

Lemma count_files_eq (t : tree) :
  count_files t
  = List.length (files_or_empty t)
    + list_sum (map (fun item => count_files (snd item)) (children_or_empty t)).
Proof. destruct t as [[c|] f]; reflexivity. Qed.

(** Each insertion adds one leaf record to the tree and removes none. *)
Lemma add_to_tree_count (parts : list str) :
  forall t t' path,
    add_to_tree t parts path = Some t' -> count_files t' = S (count_files t).
Proof.
  induction parts as [|p parts IH]; intros t t' path E; [discriminate|].
  destruct parts as [|q parts].
  - rewrite add_to_tree_leaf in E. injection E as <-.
    rewrite !count_files_eq. unfold files_or_empty at 1, children_or_empty at 1.
    cbn [files children]. fold (children_or_empty t).
    rewrite length_app. cbn [List.length]. lia.
  - rewrite add_to_tree_folder in E by discriminate.
    destruct (add_to_tree (subtree_or_empty p t) (q :: parts) path)
      as [s'|] eqn:Es; [|discriminate].
    injection E as <-. apply IH in Es.
    rewrite !count_files_eq. unfold files_or_empty at 1, children_or_empty at 1.
    cbn [files children]. fold (files_or_empty t).
    pose proof (list_sum_dict_set count_files p _ s' _ (children_with_get p t)) as S1.
    rewrite (list_sum_children_with count_files p t eq_refl) in S1.
    lia.
Qed.

(** ** The tree: rendering *)

Lemma flat_map_ext_In (A B : Type) (f g : A -> list B) (l : list A) :
  (forall x, In x l -> f x = g x) -> flat_map f l = flat_map g l.
Proof.
  induction l as [|x l IH]; intros H; [reflexivity|].
  cbn [flat_map]. rewrite (H x) by now left.
  rewrite IH; [reflexivity|]. intros y Hy. apply H. now right.
Qed.

(** X9.  The rendering of a tree does not depend on the [prefix] given to
    [render_tree]: the function passes it on to the subfolders and makes
    no other use of it. *)
Theorem render_tree_prefix_unused (lower : str -> str) (t : tree)
    (prefix1 prefix2 : str) (open_root : bool) :
  render_tree lower t prefix1 open_root = render_tree lower t prefix2 open_root.
Proof.
  revert prefix1 prefix2 open_root.
  induction t as [c f IH] using tree_nested_ind.
  intros prefix1 prefix2 open_root. rewrite !render_tree_eq. cbv zeta.
  do 3 f_equal. apply flat_map_ext_In. intros [folder subtree] I.
  cbn [fst snd]. do 2 f_equal.
  rewrite Forall_forall in IH.
  apply (IH (folder, subtree)).
  eapply Permutation_in; [apply Permutation_sym, sorted_perm | exact I].
Qed.

(** What a text finds in the list entry of a file or in the rendering of
    a subfolder, it finds in the rendering of the folder. *)
Lemma contains_render_tree_file (lower : str -> str) (p : str) (t : tree)
    (prefix : str) (open_root : bool) (item : file_item) :
  In item (files_or_empty t) ->
  contains p (file_part item) = true ->
  contains p (render_tree lower t prefix open_root) = true.
Proof.
  intros I C. rewrite render_tree_eq. cbv zeta.
  apply (contains_join_part p _ (file_part item)); [|exact C].
  apply in_or_app. right. apply in_or_app. right. apply in_or_app. left.
  apply in_map. eapply Permutation_in; [apply sorted_perm | exact I].
Qed.

Lemma contains_render_tree_folder (lower : str -> str) (p : str) (t : tree)
    (prefix : str) (open_root : bool) (folder : str) (subtree : tree) :
  dict_get folder (children_or_empty t) = Some subtree ->
  contains p (render_tree lower subtree (prefix ++ folder ++ lit "/") false) = true ->
  contains p (render_tree lower t prefix open_root) = true.
Proof.
  intros G C. rewrite render_tree_eq. cbv zeta.
  eapply contains_join_part; [|exact C].
  apply in_or_app. right. apply in_or_app. left.
  apply in_flat_map. exists (folder, subtree). split.
  - eapply Permutation_in; [apply sorted_perm | apply dict_get_In, G].
  - cbn [folder_parts fst snd]. right. left. reflexivity.
Qed.

Lemma contains_render_tree (lower : str -> str) (p : str) (item : file_item)
    (folders : list str) :
  forall t prefix open_root items,
    files_at folders t = Some items ->
    In item items ->
    contains p (file_part item) = true ->
    contains p (render_tree lower t prefix open_root) = true.
Proof.
  induction folders as [|folder folders IH]; intros t prefix open_root items F I C.
  - injection F as <-. eapply contains_render_tree_file; eassumption.
  - rewrite files_at_cons in F.
    destruct (dict_get folder (children_or_empty t)) as [subtree|] eqn:G;
      [|discriminate].
    eapply contains_render_tree_folder; [exact G|].
    eapply IH; eassumption.
Qed.

(** X10.  Every leaf record of a tree, in whatever folder it is, has its
    list entry in the rendering of the tree. *)
Theorem render_tree_lists_every_file (lower : str -> str) (t : tree)
    (prefix : str) (open_root : bool) (folders : list str) (node : tree)
    (item : file_item) :
  node_at folders t = Some node ->
  In item (files_or_empty node) ->
  contains (file_part item) (render_tree lower t prefix open_root) = true.
Proof.
  intros N I.
  apply (contains_render_tree lower _ item folders t prefix open_root
           (files_or_empty node)).
  - unfold files_at. now rewrite N.
  - exact I.
  - rewrite <- (app_nil_r (file_part item)) at 2.
    apply contains_here, startswith_refl.
Qed.

Lemma render_tree_lists_every_file_witness :
  node_at [lit "Biology"; lit "Evolution"] sample_tree
  = Some (Tree None
            (Some [ {| name := lit "Bug Hunt.nlogox";
                       path := lit "models/Biology/Evolution/Bug Hunt.html" |} ]))
  /\ contains
       (file_part {| name := lit "Bug Hunt.nlogox";
                     path := lit "models/Biology/Evolution/Bug Hunt.html" |})
       (render_tree lower_ascii sample_tree [] false) = true.
Proof.
  split; [reflexivity|].
  apply (render_tree_lists_every_file lower_ascii sample_tree [] false
           [lit "Biology"; lit "Evolution"] _ _ eq_refl).
  left. reflexivity.
Defined.

(** ** The tree: no markup from the names *)

Lemma passes_nil (p : str) : passes p [].
Proof. intros rest. reflexivity. Qed.

Lemma passes_app (p a b : str) : passes p a -> passes p b -> passes p (a ++ b).
Proof. intros Ha Hb rest. now rewrite <- app_assoc, Ha, Hb. Qed.

Lemma passes_no_start (p a : str) : no_start p a = true -> passes p a.
Proof. intros H rest. now apply no_start_sound. Qed.

Lemma passes_escape (p s : str) :
  match p with c :: _ => is_markup c | [] => false end = true ->
  passes p (Html.escape s).
Proof.
  destruct p as [|c p]; [discriminate|]. intros H rest.
  apply no_first_char_sound, escape_no_char, H.
Qed.

Lemma passes_join (p sep : str) (parts : list str) :
  passes p sep -> Forall (passes p) parts -> passes p (join sep parts).
Proof.
  intros Hs. induction 1 as [|x parts Hx Hp IH]; [apply passes_nil|].
  destruct parts as [|y parts]; [exact Hx|].
  change (join sep (x :: y :: parts)) with (x ++ sep ++ join sep (y :: parts)).
  now repeat apply passes_app.
Qed.

Lemma passes_none (p s : str) : p <> [] -> passes p s -> contains p s = false.
Proof.
  intros Hp H. rewrite <- (app_nil_r s), H.
  destruct p; [congruence | reflexivity].
Qed.

Ltac in_literals :=
  cbn [In]; repeat first [left; reflexivity | right].

(** One level of the rendering: when the renderings of the subfolders
    let a text pass, and the literals do, the rendering of the folder
    does. *)
Lemma render_tree_level (lower : str -> str) (pat : str) (t : tree)
    (prefix : str) (open_root : bool) :
  match pat with c :: _ => is_markup c | [] => false end = true ->
  forallb (no_start pat) (tree_literals open_root) = true ->
  Forall (fun item : str * tree =>
            forall prefix', passes pat (render_tree lower (snd item) prefix' false))
    (children_or_empty t) ->
  passes pat (render_tree lower t prefix open_root).
Proof.
  intros Hm Hl IH. rewrite render_tree_eq. cbv zeta.
  rewrite forallb_forall in Hl.
  assert (L : forall s, In s (tree_literals open_root) -> passes pat s)
    by (intros s I; apply passes_no_start, Hl, I).
  unfold tree_literals in L.
  apply passes_join; [apply L; in_literals|].
  apply Forall_app. split; [constructor; [apply L; in_literals | constructor]|].
  apply Forall_app. split; [|apply Forall_app; split].
  - apply Forall_forall. intros part I.
    apply in_flat_map in I as ([folder subtree] & I & Ip).
    cbn [fst snd folder_parts] in Ip.
    rewrite Forall_forall in IH.
    assert (Is : In (folder, subtree) (children_or_empty t))
      by (eapply Permutation_in; [apply Permutation_sym, sorted_perm | exact I]).
    destruct Ip as [<-|[<-|[<-|[]]]].
    + assert (Eh : forall x : str,
                 tpl "<li><details" ++ (if open_root then lit " open" else [])
                 ++ tpl "><summary><span class='icon folder'>" ++ [0x1F4C1%N]
                 ++ tpl "</span>" ++ x
                 = (tpl "<li><details" ++ (if open_root then lit " open" else [])
                    ++ tpl "><summary><span class='icon folder'>" ++ [0x1F4C1%N]
                    ++ tpl "</span>") ++ x)
        by (intros x; now repeat rewrite <- app_assoc).
      rewrite Eh.
      apply passes_app; [apply L; in_literals|].
      apply passes_app; [apply passes_escape, Hm | apply L; in_literals].
    + apply (IH _ Is).
    + apply L; in_literals.
  - apply Forall_forall. intros part I.
    apply in_map_iff in I as (item & <- & _). unfold file_part.
    repeat apply passes_app;
      first [ apply passes_escape, Hm | apply L; in_literals ].
  - constructor; [apply L; in_literals | constructor].
Qed.

Lemma render_tree_passes (lower : str -> str) (pat : str) (t : tree) :
  match pat with c :: _ => is_markup c | [] => false end = true ->
  forallb (no_start pat) (tree_literals false) = true ->
  forall prefix, passes pat (render_tree lower t prefix false).
Proof.
  intros Hm Hl. induction t as [c f IH] using tree_nested_ind.
  intros prefix. apply render_tree_level; assumption.
Qed.

(** X11.  Whatever the names of the folders and files and whatever the
    links, the rendering of a tree holds no text that starts with a
    markup character and is foreign to the literals of [render_tree]:
    the names and links bring no element of their own. *)
Theorem render_tree_no_foreign_markup (lower : str -> str) (t : tree)
    (prefix : str) (open_root : bool) (pat : str) :
  foreign_to_tree open_root pat = true ->
  contains pat (render_tree lower t prefix open_root) = false.
Proof.
  unfold foreign_to_tree. intros H.
  apply andb_true_iff in H as [H Ho]. apply andb_true_iff in H as [Hm Hf].
  apply passes_none; [destruct pat; [discriminate Hm | discriminate]|].
  apply render_tree_level; [exact Hm | exact Ho |].
  apply Forall_forall. intros item _ prefix'.
  apply render_tree_passes; assumption.
Qed.

Lemma render_tree_no_foreign_markup_witness :
  foreign_to_tree true (lit "<script") = true
  /\ contains (lit "<script")
       (render_tree lower_ascii
          (Tree (Some [(lit "<script>alert(1)</script>", Tree None None)])
             (Some [ {| name := lit "<script src=x>.nlogox";
                        path := lit "models/<script src=x>.html" |} ]))
          [] true)
     = false.
Proof.
  split; [vm_compute; reflexivity|].
  apply (render_tree_no_foreign_markup lower_ascii _ [] true (lit "<script")).
  vm_compute. reflexivity.
Defined.


(** ** The index *)

Lemma string_of_uint_digits (d : Decimal.uint) :
  Forall (fun c => c <> chr "<") (lit (NilEmpty.string_of_uint d)).
Proof.
  induction d; cbn [NilEmpty.string_of_uint]; [constructor|..];
    (constructor; [intros H; vm_compute in H; discriminate H | exact IHd]).
Qed.

(** A count is written with digits. *)
Lemma str_of_nat_digits (count : nat) :
  Forall (fun c => c <> chr "<") (str_of_nat count).
Proof.
  unfold str_of_nat. generalize (Nat.to_uint count). intros d.
  destruct d; try apply string_of_uint_digits.
  repeat constructor. intros H. vm_compute in H. discriminate H.
Qed.

Lemma passes_str_of_nat (p : str) (count : nat) :
  passes (chr "<" :: p) (str_of_nat count).
Proof. intros rest. apply no_first_char_sound, str_of_nat_digits. Qed.

(** What is found in the rendering of the tree is found in the index. *)
Lemma contains_render_index (lower : str -> str) (p : str) (t : tree)
    (count : nat) :
  contains p (render_tree lower t [] false) = true ->
  contains p (render_index lower t count) = true.
Proof.
  intros C. unfold render_index. cbv zeta.
  do 7 apply contains_app_r. apply contains_app_l, C.
Qed.

(** X12.  In the index every folder is closed, whatever the tree: no
    [details] element of the page is written with the [open]
    attribute. *)
Theorem render_index_folders_closed (lower : str -> str) (t : tree)
    (count : nat) :
  contains (lit "<details open") (render_index lower t count) = false.
Proof.
  apply passes_none; [discriminate|].
  unfold render_index. cbv zeta.
  apply passes_app; [apply passes_no_start; vm_compute; reflexivity|].
  apply passes_app; [apply (passes_str_of_nat (lit "details open"))|].
  do 5 (apply passes_app; [apply passes_no_start; vm_compute; reflexivity|]).
  apply passes_app; [|apply passes_no_start; vm_compute; reflexivity].
  apply render_tree_passes; vm_compute; reflexivity.
Qed.

(** ** [main] *)

(** The body of the loop never fails: the page of a model is written at
    its place under [models/], and the entry added to the tree is made
    of the parts of the path and of that place. *)
Lemma model_page_total (markdown : str -> str)
    (exists_in_models : Pathlib.PurePath -> bool)
    (model_rel : Pathlib.PurePath) (bs : list byte) :
  exists page_html,
    model_page markdown exists_in_models model_rel bs
    = Some ({| output_path :=
                 lit "models/"
                 ++ Pathlib.as_posix (Pathlib.with_suffix model_rel (lit ".html"));
               content := page_html |},
            (Pathlib.parent_parts model_rel ++ [Pathlib.name model_rel],
             lit "models/"
             ++ Pathlib.as_posix (Pathlib.with_suffix model_rel (lit ".html")))).
Proof.
  unfold model_page. destruct (extract_info_total bs) as [info ->].
  eexists. reflexivity.
Qed.

(** The loop of [main]: it never fails; it writes the pages of the
    models in their order, and builds the tree of their entries. *)
Lemma main_loop_spec (markdown : str -> str)
    (exists_in_models : Pathlib.PurePath -> bool)
    (models : list (Pathlib.PurePath * list byte)) :
  forall t0 written0,
  exists pages t,
    main_loop markdown exists_in_models (t0, written0) models
    = Some (t, written0 ++ pages)
    /\ Forall2
         (fun model page =>
            exists entry,
              model_page markdown exists_in_models (fst model) (snd model)
              = Some (page, entry))
         models pages
    /\ map output_path pages
       = map (fun model =>
                lit "models/"
                ++ Pathlib.as_posix
                     (Pathlib.with_suffix (fst model) (lit ".html")))
           models
    /\ add_all t0
         (map (fun model =>
                 (Pathlib.parent_parts (fst model) ++ [Pathlib.name (fst model)],
                  lit "models/"
                  ++ Pathlib.as_posix
                       (Pathlib.with_suffix (fst model) (lit ".html"))))
            models)
       = Some t.
Proof.
  induction models as [|[model_rel bs] models IH]; intros t0 written0.
  - exists [], t0. cbn [main_loop map add_all]. rewrite app_nil_r.
    repeat split. constructor.
  - cbn [main_loop main_step fst snd map add_all].
    destruct (model_page_total markdown exists_in_models model_rel bs)
      as [page_html E].
    rewrite E.
    destruct (add_to_tree_total t0 (Pathlib.parent_parts model_rel)
                (Pathlib.name model_rel)
                (lit "models/"
                 ++ Pathlib.as_posix
                      (Pathlib.with_suffix model_rel (lit ".html"))))
      as [t1 E1].
    rewrite E1.
    destruct (IH t1 (written0 ++
                     [{| output_path :=
                           lit "models/"
                           ++ Pathlib.as_posix
                                (Pathlib.with_suffix model_rel (lit ".html"));
                         content := page_html |}]))
      as (pages & t & El & F & P & A).
    eexists (_ :: pages), t. rewrite El, <- app_assoc. cbn [app].
    split; [reflexivity|]. split; [|split].
    + constructor; [|exact F]. cbn [fst snd]. eexists. exact E.
    + cbn [map output_path]. now rewrite P.
    + exact A.
Qed.

(** X13.  [main] never fails.  It writes one page for each model, in the
    order of the models, each at its place under [models/] and with the
    content that the body of the loop computes for it, and then the
    index, which shows the number of the models. *)
Theorem main_writes_pages_then_index (lower markdown : str -> str)
    (exists_in_models : Pathlib.PurePath -> bool)
    (models : list (Pathlib.PurePath * list byte)) :
  exists pages index,
    main lower markdown exists_in_models models = Some (pages ++ [index])
    /\ Forall2
         (fun model page =>
            exists entry,
              model_page markdown exists_in_models (fst model) (snd model)
              = Some (page, entry))
         models pages
    /\ map output_path pages
       = map (fun model =>
                lit "models/"
                ++ Pathlib.as_posix
                     (Pathlib.with_suffix (fst model) (lit ".html")))
           models
    /\ output_path index = lit "index.html"
    /\ contains
         (tpl "<div class='stats'>" ++ str_of_nat (List.length models)
          ++ lit " models</div>")
         (content index) = true.
Proof.
  destruct (main_loop_spec markdown exists_in_models models (Tree None None) [])
    as (pages & t & El & F & P & _).
  unfold main. rewrite El. cbn [app].
  eexists pages, _. split; [reflexivity|].
  split; [exact F|]. split; [exact P|]. split; [reflexivity|].
  cbn [content]. unfold render_index. cbv zeta.
  apply contains_end; [vm_compute; reflexivity|].
  rewrite startswith_same_prefix. apply startswith_app_l.
  vm_compute. reflexivity.
Qed.

(** ** The index and the pages *)

Lemma same_path_refl (q : list str) : same_path q q = true.
Proof.
  induction q as [|a q IH]; [reflexivity|].
  cbn [same_path]. now rewrite eqb_refl.
Qed.

(** An insertion keeps the leaf records that the tree holds. *)
Lemma add_to_tree_keeps (t t' : tree) (fs : list str) (leaf path : str)
    (q : list str) (item : file_item) :
  add_to_tree t (fs ++ [leaf]) path = Some t' ->
  listed_at q item t -> listed_at q item t'.
Proof.
  intros E (items & F & I). unfold listed_at.
  rewrite (files_at_add fs leaf path t t' q E), F. unfold after_add.
  cbn [items_or_empty].
  destruct (same_path q fs); [|destruct (path_prefix q fs)];
    eexists; (split; [reflexivity|]); auto.
  apply in_or_app. now left.
Qed.

(** An insertion puts its leaf record in the folder of its segments. *)
Lemma add_to_tree_lists (t t' : tree) (fs : list str) (leaf path : str) :
  add_to_tree t (fs ++ [leaf]) path = Some t' ->
  listed_at fs {| name := leaf; path := path |} t'.
Proof.
  intros E. unfold listed_at.
  rewrite (files_at_add fs leaf path t t' fs E). unfold after_add.
  rewrite same_path_refl. eexists. split; [reflexivity|].
  apply in_or_app. right. now left.
Qed.

Lemma add_all_keeps (entries : list (list str * str)) :
  forall t0 t q item,
    add_all t0 entries = Some t ->
    listed_at q item t0 -> listed_at q item t.
Proof.
  induction entries as [|[parts path] entries IH]; intros t0 t q item E L.
  - injection E as <-. exact L.
  - cbn [add_all fst snd] in E.
    destruct (add_to_tree t0 parts path) as [t1|] eqn:E1; [|discriminate].
    destruct (add_to_tree_some _ _ _ _ E1) as (fs & leaf & ->).
    eapply IH; [exact E|]. eapply add_to_tree_keeps; eassumption.
Qed.

(** After the insertions, the tree holds the leaf record of each
    entry. *)
Lemma add_all_lists (entries : list (list str * str)) :
  forall t0 t fs leaf path,
    add_all t0 entries = Some t ->
    In (fs ++ [leaf], path) entries ->
    listed_at fs {| name := leaf; path := path |} t.
Proof.
  induction entries as [|[parts0 path0] entries IH];
    intros t0 t fs leaf path E I; [destruct I|].
  cbn [add_all fst snd] in E.
  destruct (add_to_tree t0 parts0 path0) as [t1|] eqn:E1; [|discriminate].
  destruct I as [[= -> ->]|I].
  - eapply add_all_keeps; [exact E|]. eapply add_to_tree_lists, E1.
  - eapply IH; eassumption.
Qed.

(** X14.  The index that [main] writes links every page that [main]
    writes: for each page, the index holds a list entry whose link is
    the place of the page. *)
Theorem main_index_links_every_page (lower markdown : str -> str)
    (exists_in_models : Pathlib.PurePath -> bool)
    (models : list (Pathlib.PurePath * list byte)) :
  exists pages index,
    main lower markdown exists_in_models models = Some (pages ++ [index])
    /\ List.length pages = List.length models
    /\ forall page,
         In page pages ->
         contains
           (tpl "<li><a href='" ++ Html.escape (output_path page)
            ++ tpl "' target='_blank' rel='noopener'>")
           (content index) = true.
Proof.
  destruct (main_loop_spec markdown exists_in_models models (Tree None None) [])
    as (pages & t & El & F & P & A).
  unfold main. rewrite El. cbn [app].
  eexists pages, _. split; [reflexivity|].
  split; [symmetry; eapply Forall2_length, F|].
  intros page I. cbn [content].
  apply contains_render_index.
  assert (M : exists model, In model models
                /\ output_path page
                   = lit "models/"
                     ++ Pathlib.as_posix
                          (Pathlib.with_suffix (fst model) (lit ".html"))).
  { apply (in_map output_path) in I. rewrite P in I.
    apply in_map_iff in I as (model & Em & Im). eauto. }
  destruct M as (model & Im & Eo).
  pose proof (add_all_lists _ _ _ (Pathlib.parent_parts (fst model))
                (Pathlib.name (fst model)) (output_path page) A) as L.
  destruct L as (items & Fi & Ii).
  { rewrite Eo.
    apply (in_map
             (fun model0 : Pathlib.PurePath * list byte =>
                (Pathlib.parent_parts (fst model0) ++ [Pathlib.name (fst model0)],
                 lit "models/"
                 ++ Pathlib.as_posix
                      (Pathlib.with_suffix (fst model0) (lit ".html"))))
             _ _ Im). }
  eapply contains_render_tree; [exact Fi | exact Ii |].
  unfold file_part. cbn [path]. apply contains_here.
  rewrite !startswith_same_prefix. apply startswith_refl.
Qed.

Lemma add_all_count (entries : list (list str * str)) :
  forall t0 t,
    add_all t0 entries = Some t ->
    count_files t = count_files t0 + List.length entries.
Proof.
  induction entries as [|[parts path] entries IH]; intros t0 t E.
  - injection E as <-. cbn [List.length]. lia.
  - cbn [add_all fst snd] in E.
    destruct (add_to_tree t0 parts path) as [t1|] eqn:E1; [|discriminate].
    rewrite (IH _ _ E), (add_to_tree_count _ _ _ _ E1). cbn [List.length]. lia.
Qed.

(** X15.  The tree that [main] renders in the index holds, in all its
    folders together, one leaf record for each model: as many as the
    number that the index shows, and as many as the pages written. *)
Theorem main_tree_counts_models (lower markdown : str -> str)
    (exists_in_models : Pathlib.PurePath -> bool)
    (models : list (Pathlib.PurePath * list byte)) :
  exists t pages,
    main_loop markdown exists_in_models (Tree None None, []) models
    = Some (t, pages)
    /\ main lower markdown exists_in_models models
       = Some (pages
               ++ [{| output_path := lit "index.html";
                      content := render_index lower t (List.length models) |}])
    /\ count_files t = List.length models
    /\ List.length pages = List.length models.
Proof.
  destruct (main_loop_spec markdown exists_in_models models (Tree None None) [])
    as (pages & t & El & F & P & A).
  cbn [app] in El. exists t, pages. split; [exact El|].
  split; [unfold main; now rewrite El|].
  split.
  - rewrite (add_all_count _ _ _ A), length_map. reflexivity.
  - symmetry. eapply Forall2_length, F.
Qed.


(** ** Runs of the generator *)

(** The documentation of a file is its first block, trimmed. *)
Example extract_info_two_blocks :
  extract_info (bytes_of two_blocks_file) = Some (lit "# Wolves").
Proof. vm_compute. reflexivity. Qed.

(** A three-byte character is decoded, a truncated one is dropped. *)
Example read_text_truncated :
  read_text Ignore [x61; xe2; x82; xac; x62; xe2; x82; x63]
  = Some [0x61; 0x20AC; 0x62; 0x63]%N.
Proof. vm_compute. reflexivity. Qed.

(** A carriage return followed by a line feed is read as one line feed. *)
Example read_text_newlines :
  read_text Ignore [x61; x0d; x0a; x62; x0d; x63]
  = Some [0x61; 0x0A; 0x62; 0x0A; 0x63]%N.
Proof. vm_compute. reflexivity. Qed.

(** [html.unescape] reads numeric and named references. *)
Example unescape_references :
  Html.unescape Html.html5_core (lit "a &lt; b &#x27;c&#39; &amp;amp; &unknown;")
  = lit "a < b 'c' &amp; &unknown;".
Proof. vm_compute. reflexivity. Qed.

(** The paths of the scenario. *)
Example wolf_sheep_paths :
  Pathlib.stem wolf_sheep = lit "Wolf Sheep"
  /\ Pathlib.as_posix (Pathlib.with_suffix wolf_sheep (lit ".png"))
     = lit "Biology/Wolf Sheep.png"
  /\ netlogoweb_url wolf_sheep
     = lit "https://netlogoweb.org/launch#https://netlogoweb.org/assets/modelslib/Biology/Wolf%20Sheep.nlogox".
Proof. vm_compute. repeat split. Qed.

(** A run of [main] on two models writes their two pages, then the index,
    which counts them and lists the folder before the file. *)
Example main_two_models :
  exists fire_page wolf_sheep_page index,
    main lower_ascii markdown_plain (fun _ => false)
      [ (fire, bytes_of "<info><![CDATA[Fire spreads.]]></info>");
        (wolf_sheep, bytes_of "<model/>") ]
    = Some [ {| output_path := lit "models/Fire.html"; content := fire_page |};
             {| output_path := lit "models/Biology/Wolf Sheep.html";
                content := wolf_sheep_page |};
             {| output_path := lit "index.html"; content := index |} ]
    /\ contains (tpl "<div class='model-info'><p>Fire spreads.</p></div>")
         fire_page = true
    /\ contains (tpl "<p><em>No info tab found.</em></p>") wolf_sheep_page = true
    /\ contains (tpl "<div class='stats'>2 models</div>") index = true
    /\ contains
         (tpl "</span>Biology</summary>
<ul>
<li><a href='models/Biology/Wolf Sheep.html' target='_blank' rel='noopener'><img class='icon file-icon' src='assets/model.png' alt='' />Wolf Sheep</a></li>
</ul>
</details></li>
<li><a href='models/Fire.html' target='_blank' rel='noopener'><img class='icon file-icon' src='assets/model.png' alt='' />Fire</a></li>
</ul>") index = true.
Proof.
  eexists _, _, _. split; [vm_compute; reflexivity|].
  repeat split; vm_compute; reflexivity.
Qed.

(** A path that holds the text [%20] has the URL of the path that holds a
    space at this place. *)
Example netlogoweb_url_percent :
  netlogoweb_url
    {| Pathlib.parent_parts := []; Pathlib.name := lit "a%20b.nlogox" |}
  = netlogoweb_url
      {| Pathlib.parent_parts := []; Pathlib.name := lit "a b.nlogox" |}.
Proof. vm_compute. reflexivity. Qed.

(** A file named [.nlogox] has no suffix for [pathlib]: its page takes
    the place of the page of a file named [.nlogox.nlogox]. *)
Example with_suffix_hidden_file :
  Pathlib.as_posix
    (Pathlib.with_suffix
       {| Pathlib.parent_parts := []; Pathlib.name := lit ".nlogox" |}
       (lit ".html"))
  = lit ".nlogox.html"
  /\ Pathlib.as_posix
       (Pathlib.with_suffix
          {| Pathlib.parent_parts := []; Pathlib.name := lit ".nlogox.nlogox" |}
          (lit ".html"))
     = lit ".nlogox.html".
Proof. vm_compute. split; reflexivity. Qed.

(** A root that is asked to open its folders opens those of the first
    level only. *)
Example render_tree_open_root :
  render_tree lower_ascii sample_tree [] true
  = tpl "<ul>
<li><details open><summary><span class='icon folder'>" ++ [0x1F4C1%N] ++ tpl "</span>Biology</summary>
<ul>
<li><details><summary><span class='icon folder'>" ++ [0x1F4C1%N] ++ tpl "</span>Evolution</summary>
<ul>
<li><a href='models/Biology/Evolution/Bug Hunt.html' target='_blank' rel='noopener'><img class='icon file-icon' src='assets/model.png' alt='' />Bug Hunt</a></li>
</ul>
</details></li>
<li><a href='models/Biology/Wolf Sheep.html' target='_blank' rel='noopener'><img class='icon file-icon' src='assets/model.png' alt='' />Wolf Sheep</a></li>
</ul>
</details></li>
<li><a href='models/Fire.html' target='_blank' rel='noopener'><img class='icon file-icon' src='assets/model.png' alt='' />Fire</a></li>
</ul>".
Proof. vm_compute. reflexivity. Qed.
